(** * Connection establishment in go-libp2p: a shallow embedding

    The development follows three source units:
    - [pstoreds]: the cache interface of the datastore-backed peerstore and
      its no-op implementation (p2p/host/peerstore/pstoreds/cache.go);
    - [client]: the circuit-relay client seen as a transport (second unit of
      the same source file);
    - [libp2pquic]: the QUIC listener, its accept loop and the wrapping of a
      raw QUIC session (p2p/transport/quic/listener.go).

    Go values are modelled as follows.  An [error] is the message it carries;
    a call returning [(T, error)] is a [result T]; a method that mutates its
    receiver or a collaborator is a function on an explicit [World].  Every
    call made on a collaborator that matters for resource accounting is
    appended to the world's [trace], oldest first.  Logging is not
    modelled. *)

From stdpp Require Import gmap strings list fin_maps.
From Stdlib Require Import ZArith NArith.

Open Scope string_scope.
Open Scope list_scope.

(** ** Errors and results *)

Definition error : Type := string.

Inductive result (A : Type) : Type :=
| Ok (a : A)
| Err (e : error).
Arguments Ok {A} a.
Arguments Err {A} e.

Definition isOk {A} (r : result A) : bool :=
  match r with Ok _ => true | Err _ => false end.

(** ** go-multiaddr, as far as the sources use it

    A multiaddress is the sequence of its protocol components.
    [ValueForProtocol] walks the components in order and answers with the
    value of the first one that carries the requested code. *)
Module ma.

Record Component : Type := mkComponent { Code : Z; Value : string }.

Definition Multiaddr : Type := list Component.

Definition P_CIRCUIT : Z := 290.
Definition P_QUIC_V1 : Z := 461.

Definition ErrProtocolNotFound : error := "protocol not found in multiaddr".

Fixpoint ValueForProtocol (m : Multiaddr) (code : Z) : result string :=
  match m with
  | [] => Err ErrProtocolNotFound
  | c :: m' => if Z.eqb (Code c) code then Ok (Value c)
               else ValueForProtocol m' code
  end.

(** The address has a component of protocol [code]. *)
Definition contains (m : Multiaddr) (code : Z) : Prop :=
  exists c, c ∈ m /\ Code c = code.

End ma.

(** ** core/network and core/peer, as far as the sources use them *)
Module peer.
Definition ID : Type := string.
End peer.

Module network.

Inductive Direction : Type := DirUnknown | DirInbound | DirOutbound.

(** Modelled from the spec: the connection error codes are declared in
    core/network, outside the sources at hand.  Section 6 of the
    specification requires the codes used for closing to stay
    distinguishable; they are the constructors of an enumeration. *)
Inductive ConnErrorCode : Type :=
| ConnNoError
| ConnResourceLimitExceeded
| ConnGated.

(** A [ConnManagementScope] is a handle on the resource manager. *)
Definition ConnManagementScope : Type := nat.

(** The resource manager interface.  [R] is the manager's own state; the
    admission policy is whatever the instance decides. *)
Class ResourceManager (R : Type) : Type := {
  OpenConnection :
    R -> Direction -> bool -> ma.Multiaddr -> result ConnManagementScope * R;
  SetPeer : R -> ConnManagementScope -> peer.ID -> option error * R;
  Done : R -> ConnManagementScope -> R
}.

(** The calls a transport makes on the resource manager and on scopes. *)
Inductive ScopeCall : Type :=
| CallOpenConnection (dir : Direction) (usefd : bool) (addr : ma.Multiaddr)
    (res : result ConnManagementScope)
| CallSetPeer (s : ConnManagementScope) (p : peer.ID) (res : option error)
| CallDone (s : ConnManagementScope).

Definition isDone (s : ConnManagementScope) (c : ScopeCall) : bool :=
  match c with
  | CallDone s' => Nat.eqb s' s
  | _ => false
  end.

Definition isOpen (c : ScopeCall) : bool :=
  match c with
  | CallOpenConnection _ _ _ _ => true
  | _ => false
  end.

End network.

(** ** pstoreds: the cache interface and the no-op cache *)
Module pstoreds.

(** Go's zero value of a type, [*new(V)]. *)
Class Zero (V : Type) : Type := zero : V.

#[export] Instance Zero_nat : Zero nat := 0.
#[export] Instance Zero_Z : Zero Z := 0%Z.
#[export] Instance Zero_string : Zero string := "".
#[export] Instance Zero_bool : Zero bool := false.

(** The methods accessed from ARCCache.  [Add] and [Remove] may change the
    cache, so they return it. *)
Class cache (K V C : Type) : Type := {
  Get : C -> K -> V * bool;
  Add : C -> K -> V -> C;
  Remove : C -> K -> C;
  Contains : C -> K -> bool;
  Peek : C -> K -> V * bool;
  Keys : C -> list K
}.

(** [noopCache] is a struct without fields. *)
Inductive noopCache (K V : Type) : Type := mkNoopCache.
Arguments mkNoopCache {K V}.

Section Noop.
Context {K V : Type} `{Zero V}.

Definition noop_Get (_ : noopCache K V) (_ : K) : V * bool := (zero, false).
Definition noop_Add (c : noopCache K V) (_ : K) (_ : V) : noopCache K V := c.
Definition noop_Remove (c : noopCache K V) (_ : K) : noopCache K V := c.
Definition noop_Contains (_ : noopCache K V) (_ : K) : bool := false.
Definition noop_Peek (_ : noopCache K V) (_ : K) : V * bool := (zero, false).
(** The named result [keys] is returned as declared: the nil slice. *)
Definition noop_Keys (_ : noopCache K V) : list K := [].

#[export] Instance noopCache_cache : cache K V (noopCache K V) := {
  Get := noop_Get;
  Add := noop_Add;
  Remove := noop_Remove;
  Contains := noop_Contains;
  Peek := noop_Peek;
  Keys := noop_Keys
}.

End Noop.

(** Write operations, to talk about histories of a cache. *)
Inductive WriteOp (K V : Type) : Type :=
| OpAdd (k : K) (v : V)
| OpRemove (k : K).
Arguments OpAdd {K V} k v.
Arguments OpRemove {K V} k.

Definition applyOp {K V C} `{cache K V C} (c : C) (op : WriteOp K V) : C :=
  match op with
  | OpAdd k v => Add c k v
  | OpRemove k => Remove c k
  end.

Definition applyOps {K V C} `{cache K V C} (c : C) (ops : list (WriteOp K V)) : C :=
  foldl applyOp c ops.

End pstoreds.

(** ** A state-and-error monad for code that talks to collaborators

    [M W A] is a computation over a world [W] that either yields an [A] or
    stops with an error, Go's [if err != nil { return nil, err }]. *)
Definition M (W A : Type) : Type := W -> result A * W.

Definition ret {W A} (a : A) : M W A := fun w => (Ok a, w).

Definition bind {W A B} (m : M W A) (k : A -> M W B) : M W B :=
  fun w =>
    match m w with
    | (Ok a, w') => k a w'
    | (Err e, w') => (Err e, w')
    end.

Notation "x <- m ;; k" := (bind m (fun x => k))
  (at level 100, m at next level, right associativity).

Definition failWith {W A} (e : error) : M W A := fun w => (Err e, w).

(** A call on a collaborator that has no effect on the world. *)
Definition pureCall {W A} (r : result A) : M W A := fun w => (r, w).

(** ** client: the circuit-relay client as a transport *)
Module client.
Import network.

(** The raw relayed connection produced by the client's [dial]. *)
Record Conn : Type := mkConn { connID : nat; relayedTo : peer.ID }.

#[export] Instance Conn_eq_dec : EqDecision Conn.
Proof. solve_decision. Defined.

(** Modelled from the spec: the upgrader (p2p/net/upgrader) is outside the
    sources at hand.  Section 6 gives its contract as
    [Upgrade(transport, rawSession, direction, peerID, scope)], yielding a
    capable connection or an error, and section 3 says what a capable
    connection holds: the raw session, the scope it owns, the remote
    identity.  Releasing the scope is left to the caller (section 6:
    caller discipline), so an upgrade makes no call on the scope here.
    Whether a failing upgrade has closed the raw session it was given is
    the upgrader's choice and part of its outcome. *)
Inductive UpgradeOutcome : Type :=
| Upgraded
| UpgradeFailed (e : error) (closedRaw : bool).

Record capableConnWithStat : Type := mkUpgraded {
  rawConn : Conn;
  connScope : ConnManagementScope;
  direction : Direction;
  remotePeer : peer.ID
}.

(** [capableConn] wraps what the upgrader returned; the upgrader's
    connections are taken to satisfy the type assertion of
    [dialAndUpgrade]. *)
Record capableConn : Type := mkCapableConn { inner : capableConnWithStat }.

Inductive Event : Type :=
| EvScope (c : ScopeCall)
| EvDial (a : ma.Multiaddr) (p : peer.ID) (res : result Conn)
| EvTagHop (c : Conn)
| EvUpgrade (c : Conn) (dir : Direction) (p : peer.ID)
    (s : ConnManagementScope) (res : UpgradeOutcome).

Section Client.
Context {R : Type} `{ResourceManager R}.

(** The world of a client: the resource manager of its host, the raw
    sessions that are open, and the calls made so far. *)
Record World : Type := mkWorld {
  rcmgr : R;
  sessions : list Conn;
  trace : list Event
}.

(** The collaborators of [Client] that are not in the sources at hand: the
    raw relay dial of dial.go and the upgrader. *)
Record Client : Type := mkClient {
  rawDial : ma.Multiaddr -> peer.ID -> result Conn;
  upgrade : Conn -> Direction -> peer.ID -> ConnManagementScope -> UpgradeOutcome
}.

Definition emit (e : Event) (w : World) : World :=
  {| rcmgr := rcmgr w; sessions := sessions w; trace := trace w ++ [e] |}.

(** [c.host.Network().ResourceManager().OpenConnection(dir, usefd, a)] *)
Definition rcmgr_OpenConnection (dir : Direction) (usefd : bool) (a : ma.Multiaddr)
  : M World ConnManagementScope :=
  fun w =>
    let '(res, r') := OpenConnection (rcmgr w) dir usefd a in
    (res, {| rcmgr := r'; sessions := sessions w;
             trace := trace w ++ [EvScope (CallOpenConnection dir usefd a res)] |}).

(** [connScope.SetPeer(p)]; the answer is Go's [error], [None] for nil. *)
Definition scope_SetPeer (s : ConnManagementScope) (p : peer.ID) (w : World)
  : option error * World :=
  let '(res, r') := SetPeer (rcmgr w) s p in
  (res, {| rcmgr := r'; sessions := sessions w;
           trace := trace w ++ [EvScope (CallSetPeer s p res)] |}).

(** [connScope.Done()] *)
Definition scope_Done (s : ConnManagementScope) (w : World) : World :=
  {| rcmgr := Done (rcmgr w) s; sessions := sessions w;
     trace := trace w ++ [EvScope (CallDone s)] |}.

(** Modelled from the spec: [Client.dial] is in dial.go, outside the
    sources at hand.  Section 4.3, step 3: the raw dial yields a raw
    session or fails.  A successful raw dial leaves one more session open;
    a failing one leaves none behind. *)
Definition c_dial (c : Client) (a : ma.Multiaddr) (p : peer.ID) : M World Conn :=
  fun w =>
    let res := rawDial c a p in
    (res, {| rcmgr := rcmgr w;
             sessions := match res with
                         | Ok conn => conn :: sessions w
                         | Err _ => sessions w
                         end;
             trace := trace w ++ [EvDial a p res] |}).

(** Modelled from the spec: [Conn.tagHop] is in conn.go of the client,
    outside the sources at hand.  Section 4.3, step 3: the raw session is
    tagged as having traversed a hop. *)
Definition tagHop (conn : Conn) (w : World) : World := emit (EvTagHop conn) w.

(** Removes one occurrence of a closed session from the open ones. *)
Fixpoint closeSession (conn : Conn) (l : list Conn) : list Conn :=
  match l with
  | [] => []
  | x :: l' => if decide (x = conn) then l' else x :: closeSession conn l'
  end.

(** [c.upgrader.Upgrade(ctx, c, conn, dir, p, connScope)] *)
Definition upgrader_Upgrade (c : Client) (conn : Conn) (dir : Direction) (p : peer.ID)
    (s : ConnManagementScope) : M World capableConnWithStat :=
  fun w =>
    let out := upgrade c conn dir p s in
    let w' := emit (EvUpgrade conn dir p s out) w in
    match out with
    | Upgraded => (Ok (mkUpgraded conn s dir p), w')
    | UpgradeFailed e closed =>
        (Err e,
         if closed
         then {| rcmgr := rcmgr w';
                 sessions := closeSession conn (sessions w');
                 trace := trace w' |}
         else w')
    end.

Definition SkipResolve (c : Client) (_ : ma.Multiaddr) : bool := true.

Definition dialAndUpgrade (c : Client) (a : ma.Multiaddr) (p : peer.ID)
    (connScope : ConnManagementScope) : M World capableConn :=
  fun w =>
    match scope_SetPeer connScope p w with
    | (Some err, w1) => (Err err, w1)
    | (None, w1) =>
        (conn <- c_dial c a p ;;
         cc <- (fun w2 => upgrader_Upgrade c conn DirOutbound p connScope
                            (tagHop conn w2)) ;;
         ret (mkCapableConn cc)) w1
    end.

Definition Dial (c : Client) (a : ma.Multiaddr) (p : peer.ID) : M World capableConn :=
  fun w =>
    match rcmgr_OpenConnection DirOutbound false a w with
    | (Err err, w1) => (Err err, w1)
    | (Ok connScope, w1) =>
        match dialAndUpgrade c a p connScope w1 with
        | (Err err, w2) => (Err err, scope_Done connScope w2)
        | (Ok conn, w2) => (Ok conn, w2)
        end
    end.

Definition CanDial (c : Client) (addr : ma.Multiaddr) : bool :=
  match ma.ValueForProtocol addr ma.P_CIRCUIT with
  | Ok _ => true
  | Err _ => false
  end.

Definition Protocols (c : Client) : list Z := [ma.P_CIRCUIT].

Definition Proxy (c : Client) : bool := true.

(** The events a computation added, from the world before and after. *)
Definition newEvents (w w' : World) : list Event :=
  drop (length (trace w)) (trace w').

(** What [Dial] has done when it returns, path by path. *)
Inductive DialPath (c : Client) (a : ma.Multiaddr) (p : peer.ID) (w : World)
  : result capableConn -> World -> Prop :=
| PathNoScope e r1 :
    OpenConnection (rcmgr w) DirOutbound false a = (Err e, r1) ->
    DialPath c a p w (Err e)
      {| rcmgr := r1; sessions := sessions w;
         trace := trace w ++
           [EvScope (CallOpenConnection DirOutbound false a (Err e))] |}
| PathSetPeer s r1 e r2 :
    OpenConnection (rcmgr w) DirOutbound false a = (Ok s, r1) ->
    SetPeer r1 s p = (Some e, r2) ->
    DialPath c a p w (Err e)
      {| rcmgr := Done r2 s; sessions := sessions w;
         trace := trace w ++
           [EvScope (CallOpenConnection DirOutbound false a (Ok s));
            EvScope (CallSetPeer s p (Some e));
            EvScope (CallDone s)] |}
| PathRawDial s r1 r2 e :
    OpenConnection (rcmgr w) DirOutbound false a = (Ok s, r1) ->
    SetPeer r1 s p = (None, r2) ->
    rawDial c a p = Err e ->
    DialPath c a p w (Err e)
      {| rcmgr := Done r2 s; sessions := sessions w;
         trace := trace w ++
           [EvScope (CallOpenConnection DirOutbound false a (Ok s));
            EvScope (CallSetPeer s p None);
            EvDial a p (Err e);
            EvScope (CallDone s)] |}
| PathUpgrade s r1 r2 conn e closed :
    OpenConnection (rcmgr w) DirOutbound false a = (Ok s, r1) ->
    SetPeer r1 s p = (None, r2) ->
    rawDial c a p = Ok conn ->
    upgrade c conn DirOutbound p s = UpgradeFailed e closed ->
    DialPath c a p w (Err e)
      {| rcmgr := Done r2 s;
         sessions := if closed then sessions w else conn :: sessions w;
         trace := trace w ++
           [EvScope (CallOpenConnection DirOutbound false a (Ok s));
            EvScope (CallSetPeer s p None);
            EvDial a p (Ok conn);
            EvTagHop conn;
            EvUpgrade conn DirOutbound p s (UpgradeFailed e closed);
            EvScope (CallDone s)] |}
| PathConnected s r1 r2 conn :
    OpenConnection (rcmgr w) DirOutbound false a = (Ok s, r1) ->
    SetPeer r1 s p = (None, r2) ->
    rawDial c a p = Ok conn ->
    upgrade c conn DirOutbound p s = Upgraded ->
    DialPath c a p w (Ok (mkCapableConn (mkUpgraded conn s DirOutbound p)))
      {| rcmgr := r2; sessions := conn :: sessions w;
         trace := trace w ++
           [EvScope (CallOpenConnection DirOutbound false a (Ok s));
            EvScope (CallSetPeer s p None);
            EvDial a p (Ok conn);
            EvTagHop conn;
            EvUpgrade conn DirOutbound p s Upgraded] |}.

End Client.

Arguments World : clear implicits.

(** Number of [Done] calls on scope [s] in a run of events. *)
Definition scopeCalls (evs : list Event) : list ScopeCall :=
  omap (fun e => match e with EvScope c => Some c | _ => None end) evs.

Definition doneCount (s : ConnManagementScope) (evs : list Event) : nat :=
  length (List.filter (isDone s) (scopeCalls evs)).

(** Number of scopes opened in a run of events. *)
Definition openCount (evs : list Event) : nat :=
  length (List.filter isOpen (scopeCalls evs)).

End client.

(** ** quic-go, as far as the sources use it *)
Module quic.

(** [quic.Version] is a 32-bit unsigned integer. *)
Definition Version : Type := N.
Definition Version1 : Version := 1%N.
Definition Version2 : Version := 1798521807%N.

End quic.

(** ** libp2pquic: the QUIC listener *)
Module libp2pquic.
Import network.

(** [net.Addr]: a network name and a printed form. *)
Record Addr : Type := mkAddr { addrNetwork : string; addrString : string }.

Definition PubKey : Type := string.

(** What the listener reads from a [*quic.Conn]: its remote address, the
    connection state (negotiated version, peer certificates of the TLS
    state) and its context.  [qid] stands for the pointer. *)
Record QConn : Type := mkQConn {
  qid : nat;
  RemoteAddr : Addr;
  Version : quic.Version;
  PeerCertificates : list string;
  Context : option ConnManagementScope
}.

(** The functions of other packages that wrapping calls.  They are not in
    the sources at hand and are left open: any theorem below holds for
    every choice of them. *)
Record Packages : Type := mkPackages {
  (** quicreuse.ToQuicMultiaddr *)
  ToQuicMultiaddr : Addr -> quic.Version -> result ma.Multiaddr;
  (** network.UnwrapConnManagementScope, a scope (or nil) and an error (or nil) *)
  UnwrapConnManagementScope :
    option ConnManagementScope -> option ConnManagementScope * option error;
  (** p2ptls.PubKeyFromCertChain *)
  PubKeyFromCertChain : list string -> result PubKey;
  (** peer.IDFromPublicKey *)
  IDFromPublicKey : PubKey -> result peer.ID;
  (** quic.Version.String *)
  VersionString : quic.Version -> string
}.

Record conn : Type := mkconn {
  quicConn : QConn;
  scope : ConnManagementScope;
  localPeer : peer.ID;
  localMultiaddr : ma.Multiaddr;
  remoteMultiaddr : ma.Multiaddr;
  remotePeerID : peer.ID;
  remotePubKey : PubKey
}.

(** connmgr.ConnectionGater, the two interceptions the listener calls. *)
Record ConnectionGater : Type := mkGater {
  InterceptAccept : conn -> bool;
  InterceptSecured : Direction -> peer.ID -> conn -> bool
}.

Record holePunchKey : Type := mkKey { addr : string; peer : peer.ID }.

#[export] Instance holePunchKey_eq_dec : EqDecision holePunchKey.
Proof. solve_decision. Defined.

#[export] Instance holePunchKey_countable : Countable holePunchKey.
Proof.
  refine (inj_countable' (fun k => (addr k, peer k))
                         (fun p => mkKey (fst p) (snd p)) _).
  intros []; reflexivity.
Defined.

(** Modelled from the spec: the declarations of the transport's registry and
    of its records are in transport.go, outside the sources at hand.
    Section 3 gives a Pending Hole Punch a delivery channel and a fulfilled
    flag, and section 4.1 has the accept loop mark the record itself, so the
    record is shared: the registry maps a key to the address of a record in
    a store.  [connCh] holds what has been sent on the channel and not yet
    received. *)
Record activeHolePunch : Type := mkHolePunch {
  connCh : list conn;
  fulfilled : bool
}.

Definition loc : Type := nat.

Inductive Event : Type :=
| EvScope (c : ScopeCall)
| EvCloseWithError (q : QConn) (code : ConnErrorCode) (msg : string)
| EvConnCloseWithError (c : conn) (code : ConnErrorCode) (msg : string)
| EvSend (ch : loc) (c : conn).

(** The immutable part of [transport]; its tables are in the world. *)
Record transport : Type := mkTransport { gater : option ConnectionGater }.

(** quicreuse.Listener: the addresses it listens on.  What its [Accept]
    yields, call after call, is the script given to [Accept] below. *)
Record Listener : Type := mkListener { Multiaddrs : list ma.Multiaddr }.

(** The resource manager of a listener has state; it is kept in the
    world below rather than in the record. *)
Record listener : Type := mklistener {
  reuseListener : Listener;
  l_transport : transport;
  privKey : string;
  l_localPeer : peer.ID;
  localMultiaddrs : gmap N ma.Multiaddr
}.

Definition newListener (ln : Listener) (t : transport) (localPeer : peer.ID)
    (key : string) : result listener :=
  let localMultiaddrs :=
    foldl (fun (m : gmap N ma.Multiaddr) addr =>
             match ma.ValueForProtocol addr ma.P_QUIC_V1 with
             | Ok _ => <[quic.Version1 := addr]> m
             | Err _ => m
             end) ∅ (Multiaddrs ln) in
  Ok {| reuseListener := ln;
        l_transport := t;
        privKey := key;
        l_localPeer := localPeer;
        localMultiaddrs := localMultiaddrs |}.

Section Listener.
Context {R : Type} `{ResourceManager R}.
Variable P : Packages.

(** The world of a listener: the resource manager, the transport's
    hole-punch registry with the store of its records, the transport's
    table of connections, and the calls made so far. *)
Record World : Type := mkWorld {
  rcmgr : R;
  holePunching : gmap holePunchKey loc;
  heap : gmap loc activeHolePunch;
  conns : gmap nat conn;
  trace : list Event
}.

Definition emit (e : Event) (w : World) : World :=
  {| rcmgr := rcmgr w; holePunching := holePunching w; heap := heap w;
     conns := conns w; trace := trace w ++ [e] |}.

(** [l.rcmgr.OpenConnection(dir, usefd, a)] *)
Definition rcmgr_OpenConnection (dir : Direction) (usefd : bool) (a : ma.Multiaddr)
  : M World ConnManagementScope :=
  fun w =>
    let '(res, r') := OpenConnection (rcmgr w) dir usefd a in
    (res, {| rcmgr := r'; holePunching := holePunching w; heap := heap w;
             conns := conns w;
             trace := trace w ++ [EvScope (CallOpenConnection dir usefd a res)] |}).

(** [connScope.SetPeer(p)] *)
Definition scope_SetPeer (s : ConnManagementScope) (p : peer.ID) : M World unit :=
  fun w =>
    let '(res, r') := SetPeer (rcmgr w) s p in
    (match res with Some err => Err err | None => Ok tt end,
     {| rcmgr := r'; holePunching := holePunching w; heap := heap w;
        conns := conns w;
        trace := trace w ++ [EvScope (CallSetPeer s p res)] |}).

(** [connScope.Done()] *)
Definition scope_Done (s : ConnManagementScope) (w : World) : World :=
  {| rcmgr := Done (rcmgr w) s; holePunching := holePunching w; heap := heap w;
     conns := conns w; trace := trace w ++ [EvScope (CallDone s)] |}.

Definition unknownVersion (v : quic.Version) : error :=
  "unknown QUIC version:" +:+ VersionString P v.

Definition wrapConnWithScope (l : listener) (qconn : QConn)
    (connScope : ConnManagementScope) (remoteMultiaddr : ma.Multiaddr)
  : M World conn :=
  remotePubKey <- pureCall (PubKeyFromCertChain P (PeerCertificates qconn)) ;;
  remotePeerID <- pureCall (IDFromPublicKey P remotePubKey) ;;
  _ <- scope_SetPeer connScope remotePeerID ;;
  match localMultiaddrs l !! Version qconn with
  | None => failWith (unknownVersion (Version qconn))
  | Some localMultiaddr =>
      ret {| quicConn := qconn;
             scope := connScope;
             localPeer := l_localPeer l;
             localMultiaddr := localMultiaddr;
             remoteMultiaddr := remoteMultiaddr;
             remotePeerID := remotePeerID;
             remotePubKey := remotePubKey |}
  end.

(** The scope found in the context of the session, if any: the first
    lines of [wrapConn] drop the scope when unwrapping reports an error. *)
Definition scopeFromContext (qconn : QConn) : option ConnManagementScope :=
  let '(connScope, err) := UnwrapConnManagementScope P (Context qconn) in
  match err with
  | Some _ => None
  | None => connScope
  end.

Definition wrapConn (l : listener) (qconn : QConn) : M World conn :=
  fun w =>
    match ToQuicMultiaddr P (RemoteAddr qconn) (Version qconn) with
    | Err err => (Err err, w)
    | Ok remoteMultiaddr =>
        match
          match scopeFromContext qconn with
          | None => rcmgr_OpenConnection DirInbound false remoteMultiaddr w
          | Some connScope => (Ok connScope, w)
          end
        with
        | (Err err, w1) => (Err err, w1)
        | (Ok connScope, w1) =>
            match wrapConnWithScope l qconn connScope remoteMultiaddr w1 with
            | (Err err, w2) => (Err err, scope_Done connScope w2)
            | (Ok c, w2) => (Ok c, w2)
            end
        end
    end.

(** The world after more calls on the resource manager: its new state
    and the events added. *)
Definition extend (r' : R) (evs : list Event) (w : World) : World :=
  {| rcmgr := r'; holePunching := holePunching w; heap := heap w;
     conns := conns w; trace := trace w ++ evs |}.

(** The first step of [wrapConn] has ended with scope [s]: found in the
    context of the session, or opened on the resource manager. *)
Inductive Acquired (qconn : QConn) (rm : ma.Multiaddr) (w : World)
  : ConnManagementScope -> World -> Prop :=
| AcquiredFromContext s :
    scopeFromContext qconn = Some s ->
    Acquired qconn rm w s w
| AcquiredOpened s r1 :
    scopeFromContext qconn = None ->
    OpenConnection (rcmgr w) DirInbound false rm = (Ok s, r1) ->
    Acquired qconn rm w s
      (extend r1 [EvScope (CallOpenConnection DirInbound false rm (Ok s))] w).

(** What [wrapConn] has done when it returns, path by path. *)
Inductive WrapPath (l : listener) (qconn : QConn) (w : World)
  : result conn -> World -> Prop :=
| WrapNoAddress e :
    ToQuicMultiaddr P (RemoteAddr qconn) (Version qconn) = Err e ->
    WrapPath l qconn w (Err e) w
| WrapNoScope rm e r1 :
    ToQuicMultiaddr P (RemoteAddr qconn) (Version qconn) = Ok rm ->
    scopeFromContext qconn = None ->
    OpenConnection (rcmgr w) DirInbound false rm = (Err e, r1) ->
    WrapPath l qconn w (Err e)
      (extend r1 [EvScope (CallOpenConnection DirInbound false rm (Err e))] w)
| WrapNoPubKey rm s w1 e :
    ToQuicMultiaddr P (RemoteAddr qconn) (Version qconn) = Ok rm ->
    Acquired qconn rm w s w1 ->
    PubKeyFromCertChain P (PeerCertificates qconn) = Err e ->
    WrapPath l qconn w (Err e)
      (extend (Done (rcmgr w1) s) [EvScope (CallDone s)] w1)
| WrapNoPeerID rm s w1 pk e :
    ToQuicMultiaddr P (RemoteAddr qconn) (Version qconn) = Ok rm ->
    Acquired qconn rm w s w1 ->
    PubKeyFromCertChain P (PeerCertificates qconn) = Ok pk ->
    IDFromPublicKey P pk = Err e ->
    WrapPath l qconn w (Err e)
      (extend (Done (rcmgr w1) s) [EvScope (CallDone s)] w1)
| WrapPeerRefused rm s w1 pk pid e r2 :
    ToQuicMultiaddr P (RemoteAddr qconn) (Version qconn) = Ok rm ->
    Acquired qconn rm w s w1 ->
    PubKeyFromCertChain P (PeerCertificates qconn) = Ok pk ->
    IDFromPublicKey P pk = Ok pid ->
    SetPeer (rcmgr w1) s pid = (Some e, r2) ->
    WrapPath l qconn w (Err e)
      (extend (Done r2 s)
         [EvScope (CallSetPeer s pid (Some e)); EvScope (CallDone s)] w1)
| WrapUnknownVersion rm s w1 pk pid r2 :
    ToQuicMultiaddr P (RemoteAddr qconn) (Version qconn) = Ok rm ->
    Acquired qconn rm w s w1 ->
    PubKeyFromCertChain P (PeerCertificates qconn) = Ok pk ->
    IDFromPublicKey P pk = Ok pid ->
    SetPeer (rcmgr w1) s pid = (None, r2) ->
    localMultiaddrs l !! Version qconn = None ->
    WrapPath l qconn w (Err (unknownVersion (Version qconn)))
      (extend (Done r2 s)
         [EvScope (CallSetPeer s pid None); EvScope (CallDone s)] w1)
| WrapDone rm s w1 pk pid r2 lm :
    ToQuicMultiaddr P (RemoteAddr qconn) (Version qconn) = Ok rm ->
    Acquired qconn rm w s w1 ->
    PubKeyFromCertChain P (PeerCertificates qconn) = Ok pk ->
    IDFromPublicKey P pk = Ok pid ->
    SetPeer (rcmgr w1) s pid = (None, r2) ->
    localMultiaddrs l !! Version qconn = Some lm ->
    WrapPath l qconn w
      (Ok {| quicConn := qconn;
             scope := s;
             localPeer := l_localPeer l;
             localMultiaddr := lm;
             remoteMultiaddr := rm;
             remotePeerID := pid;
             remotePubKey := pk |})
      (extend r2 [EvScope (CallSetPeer s pid None)] w1).

(** Modelled from the spec: [transport.addConn] is in transport.go, outside
    the sources at hand.  Section 4.1, step 3: the new connection is
    registered in the transport's table of active connections. *)
Definition addConn (qconn : QConn) (c : conn) (w : World) : World :=
  {| rcmgr := rcmgr w; holePunching := holePunching w; heap := heap w;
     conns := <[qid qconn := c]> (conns w); trace := trace w |}.

(** Modelled from the spec: [conn.closeWithError] is in conn.go, outside the
    sources at hand.  Section 3: a connection owns its raw session and its
    resource scope, and both are released together on close.  The close of
    the connection with the given code is one event, which stands for the
    close of its raw session with that code, and the scope of the
    connection is released. *)
Definition closeWithError (c : conn) (code : ConnErrorCode) (msg : string)
    (w : World) : World :=
  scope_Done (scope c) (emit (EvConnCloseWithError c code msg) w).

(** [qconn.CloseWithError(code, msg)] *)
Definition quic_CloseWithError (qconn : QConn) (code : ConnErrorCode) (msg : string)
    (w : World) : World :=
  emit (EvCloseWithError qconn code msg) w.

(** The condition of the gating branch of [Accept]. *)
Definition gated (t : transport) (c : conn) : bool :=
  match gater t with
  | Some g => negb (InterceptAccept g c &&
                    InterceptSecured g DirInbound (remotePeerID c) c)
  | None => false
  end.

(** [holePunch.connCh <- c] followed by [holePunch.fulfilled = true], on the
    record stored at [p]. *)
Definition deliver (p : loc) (hp : activeHolePunch) (c : conn) (w : World) : World :=
  {| rcmgr := rcmgr w; holePunching := holePunching w;
     heap := <[p := {| connCh := connCh hp ++ [c]; fulfilled := true |}]> (heap w);
     conns := conns w; trace := trace w ++ [EvSend p c] |}.

(** How a call of [Accept] ends.  [Blocked]: the underlying listener has
    nothing more to hand out and the call waits in its [Accept].
    [Panicked]: the registry holds a nil pointer. *)
Inductive Accepted : Type :=
| Returned (c : conn)
| Failed (e : error)
| Blocked
| Panicked.

(** One pass through the body of the loop either goes round again or
    leaves [Accept]. *)
Inductive Iteration : Type :=
| Continue (w : World)
| Return (r : Accepted) (w : World).

(** The body of the loop of [Accept], on what the underlying listener's
    [Accept] has just yielded. *)
Definition acceptOnce (l : listener) (accepted : result QConn) (w : World)
  : Iteration :=
  match accepted with
  | Err err => Return (Failed err) w
  | Ok qconn =>
      match wrapConn l qconn w with
      | (Err _, w1) =>
          Continue (quic_CloseWithError qconn ConnResourceLimitExceeded "" w1)
      | (Ok c, w1) =>
          let w2 := addConn qconn c w1 in
          if gated (l_transport l) c
          then Continue (closeWithError c ConnGated "connection gated" w2)
          else
            let key := {| addr := addrString (RemoteAddr qconn);
                          peer := remotePeerID c |} in
            match holePunching w2 !! key with
            | Some p =>
                match heap w2 !! p with
                | Some holePunch =>
                    if fulfilled holePunch
                    then Return (Returned c) w2
                    else Continue (deliver p holePunch c w2)
                | None => Return Panicked w2
                end
            | None => Return (Returned c) w2
            end
      end
  end.

(** [Accept] on a listener whose underlying listener yields [incoming],
    one element per call.  The result comes with what is left of
    [incoming] and with the world as [Accept] leaves it. *)
Fixpoint Accept (l : listener) (incoming : list (result QConn)) (w : World)
  : Accepted * list (result QConn) * World :=
  match incoming with
  | [] => (Blocked, [], w)
  | accepted :: rest =>
      match acceptOnce l accepted w with
      | Continue w' => Accept l rest w'
      | Return r w' => (r, rest, w')
      end
  end.

Definition worldOf (it : Iteration) : World :=
  match it with
  | Continue w => w
  | Return _ w => w
  end.

(** The key under which the registry is searched for a wrapped session. *)
Definition keyOf (qconn : QConn) (c : conn) : holePunchKey :=
  {| addr := addrString (RemoteAddr qconn); peer := remotePeerID c |}.

(** What one pass through the body of the loop has done, path by path. *)
Inductive OncePath (l : listener) (w : World) : result QConn -> Iteration -> Prop :=
| OnceFailed e :
    OncePath l w (Err e) (Return (Failed e) w)
| OnceNotWrapped qconn e w1 :
    wrapConn l qconn w = (Err e, w1) ->
    OncePath l w (Ok qconn)
      (Continue (quic_CloseWithError qconn ConnResourceLimitExceeded "" w1))
| OnceGated qconn c w1 :
    wrapConn l qconn w = (Ok c, w1) ->
    gated (l_transport l) c = true ->
    OncePath l w (Ok qconn)
      (Continue (closeWithError c ConnGated "connection gated" (addConn qconn c w1)))
| OnceUnregistered qconn c w1 :
    wrapConn l qconn w = (Ok c, w1) ->
    gated (l_transport l) c = false ->
    holePunching w1 !! keyOf qconn c = None ->
    OncePath l w (Ok qconn) (Return (Returned c) (addConn qconn c w1))
| OnceNilRecord qconn c w1 p :
    wrapConn l qconn w = (Ok c, w1) ->
    gated (l_transport l) c = false ->
    holePunching w1 !! keyOf qconn c = Some p ->
    heap w1 !! p = None ->
    OncePath l w (Ok qconn) (Return Panicked (addConn qconn c w1))
| OnceFulfilled qconn c w1 p hp :
    wrapConn l qconn w = (Ok c, w1) ->
    gated (l_transport l) c = false ->
    holePunching w1 !! keyOf qconn c = Some p ->
    heap w1 !! p = Some hp ->
    fulfilled hp = true ->
    OncePath l w (Ok qconn) (Return (Returned c) (addConn qconn c w1))
| OnceDelivered qconn c w1 p hp :
    wrapConn l qconn w = (Ok c, w1) ->
    gated (l_transport l) c = false ->
    holePunching w1 !! keyOf qconn c = Some p ->
    heap w1 !! p = Some hp ->
    fulfilled hp = false ->
    OncePath l w (Ok qconn) (Continue (deliver p hp c (addConn qconn c w1))).

(** An application calling [Accept] [n] times in a row. *)
Fixpoint AcceptN (n : nat) (l : listener) (incoming : list (result QConn))
    (w : World) : list Accepted * list (result QConn) * World :=
  match n with
  | O => ([], incoming, w)
  | S n' =>
      let '(r, rest, w1) := Accept l incoming w in
      let '(rs, rest', w') := AcceptN n' l rest w1 in
      (r :: rs, rest', w')
  end.

(** The events a computation added, from the world before and after. *)
Definition newEvents (w w' : World) : list Event :=
  drop (length (trace w)) (trace w').

End Listener.

Arguments World : clear implicits.

Definition scopeCalls (evs : list Event) : list ScopeCall :=
  omap (fun e => match e with EvScope c => Some c | _ => None end) evs.

Definition doneCount (s : ConnManagementScope) (evs : list Event) : nat :=
  length (List.filter (isDone s) (scopeCalls evs)).

Definition openCount (evs : list Event) : nat :=
  length (List.filter isOpen (scopeCalls evs)).

(** The connections sent on the channel of the record at [p]. *)
Definition sentOn (p : loc) (evs : list Event) : list conn :=
  omap (fun e => match e with
                 | EvSend p' c => if Nat.eqb p' p then Some c else None
                 | _ => None
                 end) evs.

(** Between [w] and [w'] the record at [p] is left alone, or it was
    pending and exactly one connection was sent on its channel, which
    fulfilled it. *)
Definition AtMostOnce {R} (p : loc) (w w' : World R) : Prop :=
  exists evs,
    trace w' = trace w ++ evs /\
    ((sentOn p evs = [] /\ heap w' !! p = heap w !! p) \/
     (exists hp c,
        heap w !! p = Some hp /\ fulfilled hp = false /\
        sentOn p evs = [c] /\
        heap w' !! p = Some {| connCh := connCh hp ++ [c]; fulfilled := true |})).

(** Between [w] and [w'] only connections that satisfy [ok] were sent on
    channels of the registry. *)
Definition SendsOnly {R} (ok : conn -> Prop) (w w' : World R) : Prop :=
  exists evs,
    trace w' = trace w ++ evs /\
    forall p c, c ∈ sentOn p evs -> ok c.

End libp2pquic.

(** ** Concrete collaborators, to run the code on *)
Module doubles.
Import network.

(** A resource manager with a quota of connections and a list of peers it
    refuses.  Scopes are numbered as they are opened. *)
Record quota : Type := mkQuota {
  nextScope : nat;
  free : nat;
  refused : list peer.ID
}.

Definition errLimit : error := "resource limit exceeded".

#[global] Instance quota_rcmgr : ResourceManager quota := {
  OpenConnection q _ _ _ :=
    match free q with
    | O => (Err errLimit, q)
    | S n => (Ok (nextScope q), mkQuota (S (nextScope q)) n (refused q))
    end;
  SetPeer q _ p :=
    (if bool_decide (p ∈ refused q) then Some errLimit else None, q);
  Done q _ := mkQuota (nextScope q) (S (free q)) (refused q)
}.

Definition P_UDP : Z := 273.

(** Addresses on UDP are turned into a QUIC multiaddress. *)
Definition packages : libp2pquic.Packages := {|
  libp2pquic.ToQuicMultiaddr a _ :=
    if String.eqb (libp2pquic.addrNetwork a) "udp"
    then Ok [ma.mkComponent P_UDP (libp2pquic.addrString a);
             ma.mkComponent ma.P_QUIC_V1 ""]
    else Err "not a UDP address";
  libp2pquic.UnwrapConnManagementScope ctx :=
    match ctx with
    | Some s => (Some s, None)
    | None => (None, Some "context has no ConnManagementScope")
    end;
  libp2pquic.PubKeyFromCertChain certs :=
    match certs with
    | [cert] => Ok cert
    | _ => Err "expected one certificates in the chain"
    end;
  libp2pquic.IDFromPublicKey k :=
    if String.eqb k "" then Err "empty key" else Ok ("Qm" +:+ k);
  libp2pquic.VersionString v :=
    if N.eqb v quic.Version1 then "v1"
    else if N.eqb v quic.Version2 then "v2" else "unknown"
|}.


Definition listenAddr : ma.Multiaddr :=
  [ma.mkComponent P_UDP "0.0.0.0:4001"; ma.mkComponent ma.P_QUIC_V1 ""].

Definition udpOnly : ma.Multiaddr := [ma.mkComponent P_UDP "0.0.0.0:4001"].

Definition ln : libp2pquic.Listener :=
  {| libp2pquic.Multiaddrs := [udpOnly; listenAddr] |}.

Definition openTransport : libp2pquic.transport :=
  {| libp2pquic.gater := None |}.

(** A gater that lets nobody in. *)
Definition denyAll : libp2pquic.ConnectionGater :=
  {| libp2pquic.InterceptAccept _ := false;
     libp2pquic.InterceptSecured _ _ _ := false |}.

(** A gater that lets connections through the first interception and stops
    one peer at the second. *)
Definition denyPeer (p : peer.ID) : libp2pquic.ConnectionGater :=
  {| libp2pquic.InterceptAccept _ := true;
     libp2pquic.InterceptSecured _ p' _ := negb (String.eqb p' p) |}.

Definition gatedTransport (g : libp2pquic.ConnectionGater) : libp2pquic.transport :=
  {| libp2pquic.gater := Some g |}.

Definition listenerOn (t : libp2pquic.transport) : libp2pquic.listener :=
  {| libp2pquic.reuseListener := ln;
     libp2pquic.l_transport := t;
     libp2pquic.privKey := "local-key";
     libp2pquic.l_localPeer := "QmLocal";
     libp2pquic.localMultiaddrs := {[ quic.Version1 := listenAddr ]} |}.

Definition remote : libp2pquic.Addr :=
  {| libp2pquic.addrNetwork := "udp"; libp2pquic.addrString := "203.0.113.7:4001" |}.

(** Sessions: two from the same peer and address over QUIC v1, one over
    QUIC v2, one with an empty certificate chain, one that comes with a
    scope attached by the layer below. *)
Definition session (n : nat) : libp2pquic.QConn :=
  {| libp2pquic.qid := n; libp2pquic.RemoteAddr := remote;
     libp2pquic.Version := quic.Version1;
     libp2pquic.PeerCertificates := ["alice"];
     libp2pquic.Context := None |}.


Definition sessionNoCert : libp2pquic.QConn :=
  {| libp2pquic.qid := 8; libp2pquic.RemoteAddr := remote;
     libp2pquic.Version := quic.Version1;
     libp2pquic.PeerCertificates := [];
     libp2pquic.Context := None |}.

Definition sessionScoped : libp2pquic.QConn :=
  {| libp2pquic.qid := 9; libp2pquic.RemoteAddr := remote;
     libp2pquic.Version := quic.Version1;
     libp2pquic.PeerCertificates := ["alice"];
     libp2pquic.Context := Some 40 |}.

Definition sessionScopedNoCert : libp2pquic.QConn :=
  {| libp2pquic.qid := 10; libp2pquic.RemoteAddr := remote;
     libp2pquic.Version := quic.Version1;
     libp2pquic.PeerCertificates := [];
     libp2pquic.Context := Some 40 |}.

Definition remoteMa : ma.Multiaddr :=
  [ma.mkComponent P_UDP "203.0.113.7:4001"; ma.mkComponent ma.P_QUIC_V1 ""].

(** The connection that wrapping [session n] with scope [s] yields. *)
Definition wrapped (n : nat) (s : ConnManagementScope) : libp2pquic.conn :=
  {| libp2pquic.quicConn := session n;
     libp2pquic.scope := s;
     libp2pquic.localPeer := "QmLocal";
     libp2pquic.localMultiaddr := listenAddr;
     libp2pquic.remoteMultiaddr := remoteMa;
     libp2pquic.remotePeerID := "Qmalice";
     libp2pquic.remotePubKey := "alice" |}.

Definition aliceKey : libp2pquic.holePunchKey :=
  {| libp2pquic.addr := "203.0.113.7:4001"; libp2pquic.peer := "Qmalice" |}.

(** A world with room for [n] connections and an empty registry. *)
Definition quiet (n : nat) : libp2pquic.World quota :=
  {| libp2pquic.rcmgr := mkQuota 0 n [];
     libp2pquic.holePunching := ∅;
     libp2pquic.heap := ∅;
     libp2pquic.conns := ∅;
     libp2pquic.trace := [] |}.

(** A world in which a hole punch towards alice is pending, its record
    stored at address 5. *)
Definition punching : libp2pquic.World quota :=
  {| libp2pquic.rcmgr := mkQuota 0 4 [];
     libp2pquic.holePunching := {[ aliceKey := 5 ]};
     libp2pquic.heap := {[ 5 := libp2pquic.mkHolePunch [] false ]};
     libp2pquic.conns := ∅;
     libp2pquic.trace := [] |}.

(** The relay client's side. *)
Definition relayAddr : ma.Multiaddr :=
  [ma.mkComponent 421 "QmRelay"; ma.mkComponent ma.P_CIRCUIT "";
   ma.mkComponent 421 "QmBob"].

Definition relayed : client.Conn := client.mkConn 1 "QmBob".

(** A client whose raw dial reaches bob only, and whose upgrader fails for
    every peer but bob, leaving the raw session open or closing it as
    [closes] says. *)
Definition relayClient (onlyBob closes : bool) : client.Client :=
  {| client.rawDial _ p :=
       if String.eqb p "QmBob" || negb onlyBob then Ok relayed
       else Err "no reservation";
     client.upgrade _ _ p _ :=
       if String.eqb p "QmBob" then client.Upgraded
       else client.UpgradeFailed "failed to negotiate security protocol" closes |}.

Definition idle (n : nat) (banned : list peer.ID) : client.World quota :=
  {| client.rcmgr := mkQuota 0 n banned;
     client.sessions := [];
     client.trace := [] |}.

End doubles.

(** ** client: listening and installing the transport *)
Module client_setup.
Import network client.

(** Modelled from the spec: the listeners are built by functions outside
    the sources at hand, [Client.Listener] of listen.go and the upgrader's
    [GateMaListener] and [UpgradeGatedMaListener] (section 6).  Each is
    kept as a constructor: what [Listen] builds is known, how it behaves
    is not looked at. *)
Inductive MaListener : Type :=
| RelayListener (c : Client)
| GateMaListener (l : MaListener).

Inductive TransportListener : Type :=
| UpgradeGatedMaListener (t : Client) (l : MaListener).

Definition Listen (c : Client) (addr : ma.Multiaddr) : result TransportListener :=
  match ma.ValueForProtocol addr ma.P_CIRCUIT with
  | Err err => Err err
  | Ok _ => Ok (UpgradeGatedMaListener c (GateMaListener (RelayListener c)))
  end.

(** [ma.Cast(circuitProtocol.VCode)]: the address made of the circuit-relay
    component alone. *)
Definition circuitAddr : ma.Multiaddr := [ma.mkComponent ma.P_CIRCUIT ""].

(** The upgrader handed to [AddTransport], as [Client] keeps it. *)
Definition Upgrader : Type :=
  Conn -> Direction -> peer.ID -> ConnManagementScope -> UpgradeOutcome.

(** What [AddTransport] asks of the host: whether its network is a
    transport network and how it prints, what [New] yields for an
    upgrader, and what the network answers to [AddTransport] and to
    [Listen].  [None] is Go's nil error. *)
Record Host : Type := mkHost {
  networkString : string;
  isTransportNetwork : bool;
  New : Upgrader -> result Client;
  net_AddTransport : Client -> option error;
  net_Listen : ma.Multiaddr -> option error
}.

Inductive SetupEvent : Type :=
| EvNew (res : result Client)
| EvAddTransport (c : Client) (res : option error)
| EvNetListen (a : ma.Multiaddr) (res : option error)
| EvStart (c : Client).

(** [AddTransport(h, upgrader)], with the calls it makes appended to
    [tr]. *)
Definition AddTransport (h : Host) (upgrader : Upgrader) (tr : list SetupEvent)
  : option error * list SetupEvent :=
  if negb (isTransportNetwork h)
  then (Some (networkString h +:+ " is not a transport network"), tr)
  else
    match New h upgrader with
    | Err err =>
        (Some ("error constructing circuit client: " +:+ err),
         tr ++ [EvNew (Err err)])
    | Ok c =>
        match net_AddTransport h c with
        | Some err =>
            (Some ("error adding circuit transport: " +:+ err),
             tr ++ [EvNew (Ok c); EvAddTransport c (Some err)])
        | None =>
            match net_Listen h circuitAddr with
            | Some err =>
                (Some ("error listening to circuit addr: " +:+ err),
                 tr ++ [EvNew (Ok c); EvAddTransport c None;
                        EvNetListen circuitAddr (Some err)])
            | None =>
                (None,
                 tr ++ [EvNew (Ok c); EvAddTransport c None;
                        EvNetListen circuitAddr None; EvStart c])
            end
        end
    end.

(** The clients started in a run of events. *)
Definition started (evs : list SetupEvent) : list Client :=
  omap (fun e => match e with EvStart c => Some c | _ => None end) evs.

(** The clients that the network took as a transport in a run of
    events. *)
Definition added (evs : list SetupEvent) : list Client :=
  omap (fun e => match e with
                 | EvAddTransport c None => Some c
                 | _ => None
                 end) evs.

(** The addresses that the network was asked to listen on. *)
Definition listenedOn (evs : list SetupEvent) : list ma.Multiaddr :=
  omap (fun e => match e with EvNetListen a _ => Some a | _ => None end) evs.

(** The addresses that the network agreed to listen on: its [Listen]
    answered nil. *)
Definition listening (evs : list SetupEvent) : list ma.Multiaddr :=
  omap (fun e => match e with
                 | EvNetListen a None => Some a
                 | _ => None
                 end) evs.

(** The raw dials, the sessions tagged as hops and the upgrades in a run of
    events of [Dial]. *)
Definition dials (evs : list Event) : list (ma.Multiaddr * peer.ID) :=
  omap (fun e => match e with EvDial a p _ => Some (a, p) | _ => None end) evs.

(** The sessions that the raw dials have produced. *)
Definition dialed (evs : list Event) : list Conn :=
  omap (fun e => match e with EvDial _ _ (Ok c) => Some c | _ => None end) evs.

Definition tagged (evs : list Event) : list Conn :=
  omap (fun e => match e with EvTagHop c => Some c | _ => None end) evs.

Definition upgrades (evs : list Event)
  : list (Conn * Direction * peer.ID * ConnManagementScope) :=
  omap (fun e => match e with
                 | EvUpgrade c dir p s _ => Some (c, dir, p, s)
                 | _ => None
                 end) evs.

(** A host for running [AddTransport]: [New] yields the relay client of
    the doubles, adding it succeeds, and listening succeeds or not. *)
Definition plainHost (listens : bool) : Host :=
  {| networkString := "swarm";
     isTransportNetwork := true;
     New := fun _ => Ok (doubles.relayClient true true);
     net_AddTransport := fun _ => None;
     net_Listen := fun _ => if listens then None else Some "no listener" |}.

End client_setup.

(** ** libp2pquic: reading the trace of a listener *)
Module libp2pquic_trace.
Import network libp2pquic.

(** The raw sessions closed, with the code and the reason given. *)
Definition rawClosed (evs : list Event) : list (QConn * ConnErrorCode * string) :=
  omap (fun e => match e with
                 | EvCloseWithError q code msg => Some (q, code, msg)
                 | _ => None
                 end) evs.

(** The wrapped connections closed, with the code and the reason given. *)
Definition connClosed (evs : list Event) : list (conn * ConnErrorCode * string) :=
  omap (fun e => match e with
                 | EvConnCloseWithError c code msg => Some (c, code, msg)
                 | _ => None
                 end) evs.

(** The connections sent on any channel of the registry. *)
Definition sent (evs : list Event) : list conn :=
  omap (fun e => match e with EvSend _ c => Some c | _ => None end) evs.

(** The calls of [SetPeer]: scope and peer. *)
Definition setPeers (evs : list Event) : list (ConnManagementScope * peer.ID) :=
  omap (fun e => match e with
                 | EvScope (CallSetPeer s p _) => Some (s, p)
                 | _ => None
                 end) evs.

(** The scopes opened and the scopes released. *)
Definition opened (evs : list Event) : list ConnManagementScope :=
  omap (fun e => match e with
                 | EvScope (CallOpenConnection _ _ _ (Ok s)) => Some s
                 | _ => None
                 end) evs.

Definition released (evs : list Event) : list ConnManagementScope :=
  omap (fun e => match e with
                 | EvScope (CallDone s) => Some s
                 | _ => None
                 end) evs.

(** The close of a raw session that could not be wrapped. *)
Definition limitClose (q : QConn) : QConn * ConnErrorCode * string :=
  (q, ConnResourceLimitExceeded, "").

(** Events that are calls on the resource manager. *)
Definition scopeOnly (evs : list Event) : Prop :=
  Forall (fun e => exists c, e = EvScope c) evs.

(** One for a call of [Accept] that took a session or an error from the
    underlying listener and ended with it, nothing for a call left
    waiting. *)
Definition ended (r : Accepted) : nat :=
  match r with
  | Blocked => 0
  | _ => 1
  end.


(** Every key of the registry points at a record of the store. *)
Definition wellFormed {R} (w : World R) : Prop :=
  forall k p, holePunching w !! k = Some p -> is_Some (heap w !! p).

(** The addresses that carry the QUIC v1 component. *)
Definition quicV1 (addrs : list ma.Multiaddr) : list ma.Multiaddr :=
  List.filter (fun a => isOk (ma.ValueForProtocol a ma.P_QUIC_V1)) addrs.


(** A listener on an address without the QUIC v1 component. *)
Definition lnPlain : Listener := {| Multiaddrs := [doubles.udpOnly] |}.

Definition listenerPlain : listener :=
  {| reuseListener := lnPlain;
     l_transport := doubles.openTransport;
     privKey := "local-key";
     l_localPeer := "QmLocal";
     localMultiaddrs := ∅ |}.

End libp2pquic_trace.

(** * Properties *)

(** ** The no-op cache *)
Module cache_facts.
Import pstoreds.

Section Noop.
Context {K V : Type} `{Zero V}.

Lemma applyOps_noop (c : noopCache K V) (ops : list (WriteOp K V)) :
  applyOps c ops = c.
Proof.
  unfold applyOps. revert c.
  induction ops as [|op ops IH]; intros c; simpl; [reflexivity|].
  rewrite IH. destruct op; reflexivity.
Qed.

(** C9.  Whatever was added to or removed from the no-op cache before,
    [Get] and [Peek] answer the zero value and [false] for every key,
    [Contains] answers [false], [Keys] is empty, and the cache is the one
    it was before the writes. *)
Theorem noopCache_contract (c : noopCache K V) (ops : list (WriteOp K V)) (k : K) :
  Get (applyOps c ops) k = (zero, false) /\
  Peek (applyOps c ops) k = (zero, false) /\
  Contains (applyOps c ops) k = false /\
  Keys (applyOps c ops) = [] /\
  applyOps c ops = c.
Proof.
  rewrite applyOps_noop. repeat split.
Qed.

End Noop.

End cache_facts.

(** ** The relay client *)
Module client_facts.
Import network client.

Lemma ValueForProtocol_contains (m : ma.Multiaddr) (code : Z) :
  isOk (ma.ValueForProtocol m code) = true <-> ma.contains m code.
Proof.
  unfold ma.contains. induction m as [|c m IH]; simpl.
  - split; [discriminate|]. intros (c & Hc & _). inversion Hc.
  - destruct (Z.eqb_spec (ma.Code c) code) as [Heq|Hne]; simpl.
    + split; [|reflexivity]. intros _. exists c. split; [left|exact Heq].
    + rewrite IH. split.
      * intros (c' & Hin & Hc'). exists c'. split; [right; exact Hin|exact Hc'].
      * intros (c' & Hin & Hc'). exists c'. split; [|exact Hc'].
        inversion Hin; subst; [contradiction|assumption].
Qed.

(** C8.  [CanDial] answers true exactly for the addresses that have a
    circuit-relay component; [Protocols] is the one-element sequence of the
    circuit-relay code; [Proxy] answers true. *)
Theorem relay_predicates (c : Client) (addr : ma.Multiaddr) :
  (CanDial c addr = true <-> ma.contains addr ma.P_CIRCUIT) /\
  Protocols c = [ma.P_CIRCUIT] /\
  Proxy c = true.
Proof.
  split; [|split; reflexivity].
  rewrite <- ValueForProtocol_contains. unfold CanDial.
  destruct (ma.ValueForProtocol addr ma.P_CIRCUIT); simpl; split; congruence.
Qed.

Section Dial.
Context {R : Type} `{ResourceManager R}.

Lemma newEvents_app (w w' : World R) (evs : list Event) :
  trace w' = trace w ++ evs -> newEvents w w' = evs.
Proof. unfold newEvents. intros ->. apply drop_app_length. Qed.

Lemma closeSession_head (conn : Conn) (l : list Conn) :
  closeSession conn (conn :: l) = l.
Proof. simpl. destruct (decide (conn = conn)); congruence. Qed.

Lemma Dial_path (c : Client) (a : ma.Multiaddr) (p : peer.ID) (w : World R) :
  DialPath c a p w (fst (Dial c a p w)) (snd (Dial c a p w)).
Proof.
  unfold Dial, rcmgr_OpenConnection.
  destruct (OpenConnection (rcmgr w) DirOutbound false a) as [[s|e] r1] eqn:Hopen;
    simpl; [|eapply PathNoScope; eassumption].
  unfold dialAndUpgrade, scope_SetPeer; simpl.
  destruct (SetPeer r1 s p) as [[e|] r2] eqn:Hset; simpl.
  { unfold scope_Done; simpl. rewrite <- !app_assoc; simpl.
    eapply PathSetPeer; eassumption. }
  unfold bind, c_dial; simpl.
  destruct (rawDial c a p) as [conn|e] eqn:Hdial; simpl.
  2:{ unfold scope_Done; simpl. rewrite <- !app_assoc; simpl.
      eapply PathRawDial; eassumption. }
  unfold upgrader_Upgrade, tagHop, emit; simpl.
  destruct (upgrade c conn DirOutbound p s) as [|e closed] eqn:Hup; simpl.
  - unfold ret; simpl. rewrite <- !app_assoc; simpl.
    eapply PathConnected; eassumption.
  - destruct closed; unfold scope_Done; simpl; rewrite <- ?app_assoc; simpl.
    + destruct (decide (conn = conn)); [|congruence].
      exact (PathUpgrade c a p w s r1 r2 conn e true Hopen Hset Hdial Hup).
    + exact (PathUpgrade c a p w s r1 r2 conn e false Hopen Hset Hdial Hup).
Qed.

Lemma doneCount_other (s s' : ConnManagementScope) :
  s' <> s -> isDone s' (CallDone s) = false.
Proof. intros Hne. simpl. apply Nat.eqb_neq. congruence. Qed.

Lemma doneCount_same (s : ConnManagementScope) : isDone s (CallDone s) = true.
Proof. simpl. apply Nat.eqb_refl. Qed.

Ltac count_done :=
  unfold doneCount, openCount, scopeCalls; cbn [omap list_omap List.filter isOpen];
  rewrite ?doneCount_same;
  repeat match goal with
         | Hne : ?s' <> ?s |- context [isDone ?s' (CallDone ?s)] =>
             rewrite (doneCount_other s s' Hne)
         end;
  cbn [List.filter isDone length]; try reflexivity.

(** C3.  [Dial] opens an outbound scope for the target address.  When
    [SetPeer], the raw dial or the upgrade fails, [Dial] returns an error,
    [Done] has been called on the scope exactly once, and that call is the
    last thing [Dial] did.  When all three succeed, [Dial] returns the
    upgraded connection, which holds the scope and the raw session that was
    tagged as a hop, and [Done] has not been called.  No other scope is
    opened or released. *)
Theorem Dial_scope_lifecycle (c : Client) (a : ma.Multiaddr) (p : peer.ID)
    (w : World R) (s : ConnManagementScope) (r1 : R) :
  OpenConnection (rcmgr w) DirOutbound false a = (Ok s, r1) ->
  let res := fst (Dial c a p w) in
  let evs := newEvents w (snd (Dial c a p w)) in
  head evs = Some (EvScope (CallOpenConnection DirOutbound false a (Ok s))) /\
  openCount evs = 1 /\
  (forall s', s' <> s -> doneCount s' evs = 0) /\
  ((fst (SetPeer r1 s p) <> None \/
    (exists e, rawDial c a p = Err e) \/
    (exists conn e closed, rawDial c a p = Ok conn /\
       upgrade c conn DirOutbound p s = UpgradeFailed e closed)) ->
   (exists e, res = Err e) /\
   doneCount s evs = 1 /\
   last evs = Some (EvScope (CallDone s))) /\
  (forall conn,
     fst (SetPeer r1 s p) = None ->
     rawDial c a p = Ok conn ->
     upgrade c conn DirOutbound p s = Upgraded ->
     res = Ok (mkCapableConn (mkUpgraded conn s DirOutbound p)) /\
     doneCount s evs = 0 /\
     EvTagHop conn ∈ evs).
Proof.
  intros Hopen res evs. subst res evs.
  pose proof (Dial_path c a p w) as Hpath.
  destruct (Dial c a p w) as [res w']; simpl in *.
  inversion Hpath; subst; try congruence;
    match goal with
    | Ho : OpenConnection _ _ _ _ = (Ok ?s0, _) |- _ =>
        rewrite Hopen in Ho; inversion Ho; subst; clear Ho
    end;
    erewrite newEvents_app by reflexivity;
    (split; [reflexivity|]); (split; [count_done|]);
    (split; [intros s' Hne; count_done|]).
  - (* SetPeer fails *)
    split.
    + intros _. split; [eauto|]. split; [count_done|reflexivity].
    + intros conn Hnone. rewrite H1 in Hnone. discriminate.
  - (* the raw dial fails *)
    split.
    + intros _. split; [eauto|]. split; [count_done|reflexivity].
    + intros conn _ Hd. congruence.
  - (* the upgrade fails *)
    split.
    + intros _. split; [eauto|]. split; [count_done|reflexivity].
    + intros conn0 _ Hd Hu. congruence.
  - (* connected *)
    split.
    + intros [Hs|[[e He]|(conn0 & e & closed & Hd & Hu)]].
      * rewrite H1 in Hs. simpl in Hs. congruence.
      * congruence.
      * congruence.
    + intros conn0 _ Hd _. assert (conn0 = conn) by congruence. subst conn0.
      split; [reflexivity|]. split; [count_done|].
      do 3 right. left.
Qed.


End Dial.

Lemma relay_predicates_witness :
  CanDial (doubles.relayClient true true) doubles.relayAddr = true.
Proof.
  apply (proj1 (relay_predicates (doubles.relayClient true true) doubles.relayAddr)).
  exists (ma.mkComponent ma.P_CIRCUIT ""). split; [|reflexivity].
  right. left.
Defined.

Lemma Dial_scope_lifecycle_witness :
  let c := doubles.relayClient true true in
  let w := doubles.idle 1 [] in
  OpenConnection (rcmgr w) DirOutbound false doubles.relayAddr =
    (Ok 0, doubles.mkQuota 1 0 []) /\
  fst (Dial c doubles.relayAddr "QmBob" w) =
    Ok (mkCapableConn (mkUpgraded doubles.relayed 0 DirOutbound "QmBob")) /\
  doneCount 0 (newEvents w (snd (Dial c doubles.relayAddr "QmBob" w))) = 0.
Proof.
  intros c w. split; [reflexivity|].
  destruct (Dial_scope_lifecycle c doubles.relayAddr "QmBob" w 0
              (doubles.mkQuota 1 0 []))
    as (_ & _ & _ & _ & Hok); [reflexivity|].
  destruct (Hok doubles.relayed) as (Hres & Hdone & _);
    [reflexivity..|].
  split; assumption.
Defined.



End client_facts.

(** ** The QUIC listener *)
Module listener_facts.
Import network libp2pquic.

Section Wrap.
Context {R : Type} `{ResourceManager R}.
Variable P : Packages.

Lemma newEvents_extend (w : World R) (r' : R) (evs : list Event) :
  newEvents w (extend r' evs w) = evs.
Proof. unfold newEvents, extend; simpl. apply drop_app_length. Qed.

Lemma extend_extend (w : World R) (r1 r2 : R) (evs1 evs2 : list Event) :
  extend r2 evs2 (extend r1 evs1 w) = extend r2 (evs1 ++ evs2) w.
Proof. unfold extend; simpl. rewrite app_assoc. reflexivity. Qed.

Lemma extend_nil (w : World R) : extend (rcmgr w) [] w = w.
Proof. destruct w; unfold extend; simpl. rewrite app_nil_r. reflexivity. Qed.

Lemma wrapConn_path (l : listener) (q : QConn) (w : World R) :
  WrapPath P l q w (fst (wrapConn P l q w)) (snd (wrapConn P l q w)).
Proof.
  unfold wrapConn.
  destruct (ToQuicMultiaddr P (RemoteAddr q) (Version q)) as [rm|e] eqn:Haddr;
    simpl; [|apply WrapNoAddress; assumption].
  assert (Hgen : forall s w1, Acquired P q rm w s w1 ->
            WrapPath P l q w
              (fst (let '(r, w2) := wrapConnWithScope P l q s rm w1 in
                    match r with
                    | Ok c => (Ok c, w2)
                    | Err err => (Err err, scope_Done s w2)
                    end))
              (snd (let '(r, w2) := wrapConnWithScope P l q s rm w1 in
                    match r with
                    | Ok c => (Ok c, w2)
                    | Err err => (Err err, scope_Done s w2)
                    end))).
  { intros s w1 Hacq.
    unfold wrapConnWithScope, bind, pureCall.
    destruct (PubKeyFromCertChain P (PeerCertificates q)) as [pk|e] eqn:Hpk;
      simpl; [|eapply WrapNoPubKey; eassumption].
    destruct (IDFromPublicKey P pk) as [pid|e] eqn:Hid;
      simpl; [|eapply WrapNoPeerID; eassumption].
    unfold scope_SetPeer.
    destruct (SetPeer (rcmgr w1) s pid) as [[e|] r2] eqn:Hset; simpl.
    { unfold scope_Done; simpl. rewrite <- app_assoc; simpl.
      eapply WrapPeerRefused; eassumption. }
    destruct (localMultiaddrs l !! Version q) as [lm|] eqn:Hlm; simpl.
    - unfold ret; simpl. eapply WrapDone; eassumption.
    - unfold failWith, scope_Done; simpl. rewrite <- app_assoc; simpl.
      eapply WrapUnknownVersion; eassumption. }
  destruct (scopeFromContext P q) as [s|] eqn:Hctx.
  - specialize (Hgen s w (AcquiredFromContext P q rm w s Hctx)).
    destruct (wrapConnWithScope P l q s rm w) as [[c|e] w2]; exact Hgen.
  - unfold rcmgr_OpenConnection.
    destruct (OpenConnection (rcmgr w) DirInbound false rm) as [[s|e] r1] eqn:Hopen.
    + specialize (Hgen s _ (AcquiredOpened P q rm w s r1 Hctx Hopen)).
      unfold extend in Hgen.
      match goal with
      | |- context [wrapConnWithScope P l q s rm ?w1] =>
          destruct (wrapConnWithScope P l q s rm w1) as [[c|e] w2]
      end; exact Hgen.
    + simpl. eapply WrapNoScope; eassumption.
Qed.

Lemma Acquired_extend (q : QConn) (rm : ma.Multiaddr) (w w1 : World R)
    (s : ConnManagementScope) :
  Acquired P q rm w s w1 ->
  exists r1 evs0,
    w1 = extend r1 evs0 w /\
    (evs0 = [] \/
     evs0 = [EvScope (CallOpenConnection DirInbound false rm (Ok s))]).
Proof.
  intros [s0 Hctx|s0 r1 Hctx Hopen].
  - exists (rcmgr w), []. split; [symmetry; apply extend_nil|left; reflexivity].
  - exists r1, [EvScope (CallOpenConnection DirInbound false rm (Ok s0))].
    split; [reflexivity|right; reflexivity].
Qed.

Lemma Acquired_fun (q : QConn) (rm : ma.Multiaddr) (w w1 w1' : World R)
    (s s' : ConnManagementScope) :
  Acquired P q rm w s w1 -> Acquired P q rm w s' w1' -> s = s' /\ w1 = w1'.
Proof.
  intros [s0 Hctx|s0 r1 Hctx Hopen] [s1 Hctx'|s1 r1' Hctx' Hopen'];
    try congruence.
  - split; congruence.
  - assert (s0 = s1 /\ r1 = r1') as [-> ->] by (split; congruence).
    split; reflexivity.
Qed.

Lemma isDone_other (s s' : ConnManagementScope) :
  s' <> s -> isDone s' (CallDone s) = false.
Proof. intros Hne. simpl. apply Nat.eqb_neq. congruence. Qed.

Lemma isDone_same (s : ConnManagementScope) : isDone s (CallDone s) = true.
Proof. simpl. apply Nat.eqb_refl. Qed.

Ltac count_calls :=
  unfold doneCount, openCount, scopeCalls;
  cbn [omap list_omap List.filter isOpen app];
  rewrite ?isDone_same;
  repeat match goal with
         | Hne : ?s' <> ?s |- context [isDone ?s' (CallDone ?s)] =>
             rewrite (isDone_other s s' Hne)
         end;
  cbn [List.filter isDone length]; try reflexivity.

(** Every path of [wrapConn] on which a scope is acquired, seen from the
    world before the call. *)
Ltac on_path Hpath rm s w1 Haddr Hacq :=
  inversion Hpath
    as [e0 Ha
       |rm0 e0 r0 Ha Hctx Hopen
       |rm0 s0 w0 e0 Ha Hacq0 Hpk
       |rm0 s0 w0 pk e0 Ha Hacq0 Hpk Hid
       |rm0 s0 w0 pk pid e0 r2 Ha Hacq0 Hpk Hid Hset
       |rm0 s0 w0 pk pid r2 Ha Hacq0 Hpk Hid Hset Hlm
       |rm0 s0 w0 pk pid r2 lm Ha Hacq0 Hpk Hid Hset Hlm];
  [ congruence
  | exfalso; assert (rm0 = rm) by congruence; subst rm0;
    inversion Hacq; congruence
  | | | | | ];
  (assert (rm0 = rm) by congruence); subst rm0;
  destruct (Acquired_fun _ _ _ _ _ _ _ Hacq0 Hacq) as [-> ->];
  clear Hacq0 Ha.

(** A connection that [wrapConn] returns holds the scope acquired. *)
Lemma wrapConn_holds_scope (l : listener) (q : QConn) (w w1 : World R)
    (rm : ma.Multiaddr) (s : ConnManagementScope) :
  ToQuicMultiaddr P (RemoteAddr q) (Version q) = Ok rm ->
  Acquired P q rm w s w1 ->
  match fst (wrapConn P l q w) with
  | Ok c => scope c = s
  | Err _ => True
  end.
Proof.
  intros Haddr Hacq.
  pose proof (wrapConn_path l q w) as Hpath.
  destruct (wrapConn P l q w) as [res w']; simpl in *.
  on_path Hpath rm s w1 Haddr Hacq; exact I || reflexivity.
Qed.

(** C2.  Once [wrapConn] has its scope, [Done] is called on it exactly
    once on every path that ends in an error, as the last thing before
    returning, and not at all on the path that ends with a connection,
    which then holds the scope.  The call ends in an error as soon as
    one of the later steps fails.  [Done] is called on no other scope. *)
Theorem wrapConn_releases_once (l : listener) (q : QConn) (w w1 : World R)
    (rm : ma.Multiaddr) (s : ConnManagementScope) :
  ToQuicMultiaddr P (RemoteAddr q) (Version q) = Ok rm ->
  Acquired P q rm w s w1 ->
  let res := fst (wrapConn P l q w) in
  let evs := newEvents w (snd (wrapConn P l q w)) in
  (forall s', s' <> s -> doneCount s' evs = 0) /\
  match res with
  | Ok c => scope c = s /\ doneCount s evs = 0
  | Err _ => doneCount s evs = 1 /\ last evs = Some (EvScope (CallDone s))
  end /\
  (isOk res = true <->
   exists pk pid r2 lm,
     PubKeyFromCertChain P (PeerCertificates q) = Ok pk /\
     IDFromPublicKey P pk = Ok pid /\
     SetPeer (rcmgr w1) s pid = (None, r2) /\
     localMultiaddrs l !! Version q = Some lm).
Proof.
  intros Haddr Hacq res evs. subst res evs.
  pose proof (wrapConn_path l q w) as Hpath.
  destruct (wrapConn P l q w) as [res w']; simpl in *.
  destruct (Acquired_extend _ _ _ _ _ Hacq) as (r1 & evs0 & Hw1 & Hevs0).
  on_path Hpath rm s w1 Haddr Hacq;
    subst w1; simpl in *; rewrite extend_extend, newEvents_extend;
    (split; [intros s' Hne; destruct Hevs0 as [-> | ->]; count_calls|]);
    (split; [try split; destruct Hevs0 as [-> | ->];
             first [reflexivity | count_calls]|]);
    simpl; (split; [try discriminate|]).
  - intros (pk & pid & r2 & lm & Hpk' & _). congruence.
  - intros (pk' & pid & r2 & lm & Hpk' & Hid' & _). congruence.
  - intros (pk' & pid' & r2' & lm & Hpk' & Hid' & Hset' & _). congruence.
  - intros (pk' & pid' & r2' & lm & Hpk' & Hid' & Hset' & Hlm'). congruence.
  - intros _. exists pk, pid, r2, lm. repeat split; assumption.
  - reflexivity.
Qed.

Lemma newEvents_same (w : World R) : newEvents w w = [].
Proof. unfold newEvents. apply drop_all. Qed.

Lemma scopeFromContext_attached (q : QConn) (s : ConnManagementScope) :
  UnwrapConnManagementScope P (Context q) = (Some s, None) ->
  scopeFromContext P q = Some s.
Proof. unfold scopeFromContext. intros ->. reflexivity. Qed.

Lemma scopeFromContext_none (q : QConn) :
  (forall s, UnwrapConnManagementScope P (Context q) <> (Some s, None)) ->
  scopeFromContext P q = None.
Proof.
  unfold scopeFromContext. intros Hno.
  destruct (UnwrapConnManagementScope P (Context q)) as [[s|] [e|]];
    try reflexivity.
  exfalso. apply (Hno s). reflexivity.
Qed.

(** The path of [wrapConn] when no scope could be opened. *)
Lemma wrapConn_no_scope (l : listener) (q : QConn) (w : World R)
    (rm : ma.Multiaddr) (e : error) (r1 : R) :
  ToQuicMultiaddr P (RemoteAddr q) (Version q) = Ok rm ->
  scopeFromContext P q = None ->
  OpenConnection (rcmgr w) DirInbound false rm = (Err e, r1) ->
  wrapConn P l q w =
    (Err e,
     extend r1 [EvScope (CallOpenConnection DirInbound false rm (Err e))] w).
Proof.
  intros Haddr Hctx Hopen. unfold wrapConn, rcmgr_OpenConnection.
  rewrite Haddr, Hctx, Hopen. reflexivity.
Qed.

(** C7.  With a scope attached to the session, [wrapConn] wraps with that
    scope and opens none.  Without one, the first thing it does is to open
    an inbound scope for the multiaddress derived from the remote address
    and the version of the session.  When the address cannot be derived,
    [wrapConn] returns the error and leaves the world as it was; when the
    scope cannot be opened, it returns the error and the call to
    [OpenConnection] is all it has done.  In both cases no [Done] is
    called. *)
Theorem wrapConn_scope_acquisition (l : listener) (q : QConn) (w : World R) :
  (forall rm s,
     ToQuicMultiaddr P (RemoteAddr q) (Version q) = Ok rm ->
     UnwrapConnManagementScope P (Context q) = (Some s, None) ->
     openCount (newEvents w (snd (wrapConn P l q w))) = 0 /\
     wrapConn P l q w =
       (let '(r, w2) := wrapConnWithScope P l q s rm w in
        match r with
        | Ok c => (Ok c, w2)
        | Err err => (Err err, scope_Done s w2)
        end) /\
     (forall c, fst (wrapConn P l q w) = Ok c -> scope c = s)) /\
  (forall rm,
     ToQuicMultiaddr P (RemoteAddr q) (Version q) = Ok rm ->
     (forall s, UnwrapConnManagementScope P (Context q) <> (Some s, None)) ->
     let opened := OpenConnection (rcmgr w) DirInbound false rm in
     let evs := newEvents w (snd (wrapConn P l q w)) in
     head evs =
       Some (EvScope (CallOpenConnection DirInbound false rm (fst opened))) /\
     openCount evs = 1 /\
     (forall c, fst (wrapConn P l q w) = Ok c -> fst opened = Ok (scope c)) /\
     (forall e, fst opened = Err e ->
        wrapConn P l q w =
          (Err e,
           extend (snd opened)
             [EvScope (CallOpenConnection DirInbound false rm (Err e))] w) /\
        forall s, doneCount s evs = 0)) /\
  (forall e,
     ToQuicMultiaddr P (RemoteAddr q) (Version q) = Err e ->
     wrapConn P l q w = (Err e, w) /\
     newEvents w (snd (wrapConn P l q w)) = []).
Proof.
  split; [|split].
  - intros rm s Haddr Hun.
    pose proof (scopeFromContext_attached q s Hun) as HctxQ.
    assert (Hacq : Acquired P q rm w s w) by (constructor; assumption).
    split; [|split].
    + pose proof (wrapConn_path l q w) as Hpath.
      destruct (wrapConn P l q w) as [res w']; simpl in *.
      on_path Hpath rm s w Haddr Hacq; rewrite newEvents_extend; count_calls.
    + unfold wrapConn. rewrite Haddr, HctxQ.
      destruct (wrapConnWithScope P l q s rm w) as [[c|e] w2]; reflexivity.
    + intros c Hc.
      pose proof (wrapConn_holds_scope l q w w rm s Haddr Hacq) as Hs.
      rewrite Hc in Hs. exact Hs.
  - intros rm Haddr Hno opened evs. subst opened evs.
    pose proof (scopeFromContext_none q Hno) as HctxQ.
    destruct (OpenConnection (rcmgr w) DirInbound false rm) as [[s|e] r1] eqn:HopenQ;
      simpl.
    + assert (Hacq : Acquired P q rm w s
                (extend r1 [EvScope (CallOpenConnection DirInbound false rm (Ok s))] w))
        by (constructor; assumption).
      pose proof (wrapConn_holds_scope l q w _ rm s Haddr Hacq) as Hs.
      pose proof (wrapConn_path l q w) as Hpath.
      destruct (wrapConn P l q w) as [res w']; simpl in *.
      on_path Hpath rm s
        (extend r1 [EvScope (CallOpenConnection DirInbound false rm (Ok s))] w)
        Haddr Hacq;
        rewrite extend_extend, newEvents_extend;
        (split; [reflexivity|]); (split; [count_calls|]);
        (split; [intros c Hc; try discriminate|intros e' He'; discriminate]).
      inversion Hc; subst c. reflexivity.
    + rewrite (wrapConn_no_scope l q w rm e r1 Haddr HctxQ HopenQ); simpl.
      rewrite newEvents_extend.
      split; [reflexivity|]. split; [count_calls|].
      split; [intros c Hc; discriminate|].
      intros e' He'. inversion He'; subst e'. split; [reflexivity|].
      intros s. count_calls.
  - intros e Haddr.
    assert (Hw : wrapConn P l q w = (Err e, w))
      by (unfold wrapConn; rewrite Haddr; reflexivity).
    rewrite Hw. split; [reflexivity|]. apply newEvents_same.
Qed.

End Wrap.

Section AcceptLoop.
Context {R : Type} `{ResourceManager R}.
Variable P : Packages.

Lemma sentOn_app (p : loc) (evs1 evs2 : list Event) :
  sentOn p (evs1 ++ evs2) = sentOn p evs1 ++ sentOn p evs2.
Proof. unfold sentOn. apply omap_app. Qed.

Lemma sentOn_scope (p : loc) (evs : list Event) :
  Forall (fun e => exists c, e = EvScope c) evs -> sentOn p evs = [].
Proof.
  induction 1 as [|e evs [c ->] _ IH]; [reflexivity|]. simpl. exact IH.
Qed.

(** [wrapConn] talks to the resource manager only. *)
Lemma wrapConn_frame (l : listener) (q : QConn) (w : World R) :
  exists r evs,
    snd (wrapConn P l q w) = extend r evs w /\
    Forall (fun e => exists c, e = EvScope c) evs.
Proof.
  pose proof (wrapConn_path P l q w) as Hpath.
  destruct (wrapConn P l q w) as [res w']; simpl in *.
  assert (Hacq : forall rm s w1, Acquired P q rm w s w1 ->
            exists r1 evs0, w1 = extend r1 evs0 w /\
              Forall (fun e => exists c, e = EvScope c) evs0).
  { intros rm s w1 Ha.
    destruct (Acquired_extend P _ _ _ _ _ Ha) as (r1 & evs0 & -> & [-> | ->]);
      exists r1; eexists; (split; [reflexivity|]); repeat constructor; eauto. }
  inversion Hpath
    as [e0 Ha
       |rm0 e0 r0 Ha Hctx Hopen
       |rm0 s0 w0 e0 Ha Hacq0 Hpk
       |rm0 s0 w0 pk e0 Ha Hacq0 Hpk Hid
       |rm0 s0 w0 pk pid e0 r2 Ha Hacq0 Hpk Hid Hset
       |rm0 s0 w0 pk pid r2 Ha Hacq0 Hpk Hid Hset Hlm
       |rm0 s0 w0 pk pid r2 lm Ha Hacq0 Hpk Hid Hset Hlm];
    subst.
  - exists (rcmgr w'), []. split; [symmetry; apply extend_nil|constructor].
  - eexists _, _. split; [reflexivity|]. repeat constructor; eauto.
  - destruct (Hacq _ _ _ Hacq0) as (r1 & evs0 & -> & Hall).
    rewrite extend_extend. eexists _, _. split; [reflexivity|].
    apply Forall_app. split; [exact Hall|]. repeat constructor; eauto.
  - destruct (Hacq _ _ _ Hacq0) as (r1 & evs0 & -> & Hall).
    rewrite extend_extend. eexists _, _. split; [reflexivity|].
    apply Forall_app. split; [exact Hall|]. repeat constructor; eauto.
  - destruct (Hacq _ _ _ Hacq0) as (r1 & evs0 & -> & Hall).
    rewrite extend_extend. eexists _, _. split; [reflexivity|].
    apply Forall_app. split; [exact Hall|]. repeat constructor; eauto.
  - destruct (Hacq _ _ _ Hacq0) as (r1 & evs0 & -> & Hall).
    rewrite extend_extend. eexists _, _. split; [reflexivity|].
    apply Forall_app. split; [exact Hall|]. repeat constructor; eauto.
  - destruct (Hacq _ _ _ Hacq0) as (r1 & evs0 & -> & Hall).
    rewrite extend_extend. eexists _, _. split; [reflexivity|].
    apply Forall_app. split; [exact Hall|]. repeat constructor; eauto.
Qed.

(** The equations of the loop. *)
Lemma Accept_nil (l : listener) (w : World R) :
  Accept P l [] w = (Blocked, [], w).
Proof. reflexivity. Qed.

Lemma Accept_continue (l : listener) (x : result QConn)
    (rest : list (result QConn)) (w w' : World R) :
  acceptOnce P l x w = Continue w' ->
  Accept P l (x :: rest) w = Accept P l rest w'.
Proof. intros Hx. simpl. rewrite Hx. reflexivity. Qed.

Lemma Accept_return (l : listener) (x : result QConn)
    (rest : list (result QConn)) (w w' : World R) (r : Accepted) :
  acceptOnce P l x w = Return r w' ->
  Accept P l (x :: rest) w = (r, rest, w').
Proof. intros Hx. simpl. rewrite Hx. reflexivity. Qed.

(** An invariant of the body of the loop, closed under composition, holds
    between the worlds before and after [Accept], and over any number of
    calls. *)
Lemma Accept_preserves (Q : World R -> World R -> Prop) (l : listener) :
  (forall w, Q w w) ->
  (forall w1 w2 w3, Q w1 w2 -> Q w2 w3 -> Q w1 w3) ->
  (forall x w w', acceptOnce P l x w = Continue w' -> Q w w') ->
  (forall x w r w', acceptOnce P l x w = Return r w' -> Q w w') ->
  forall incoming w, Q w (snd (Accept P l incoming w)).
Proof.
  intros Hrefl Htrans Hcont Hret incoming.
  induction incoming as [|x rest IH]; intros w; simpl; [apply Hrefl|].
  destruct (acceptOnce P l x w) as [w'|r w'] eqn:Hx; simpl.
  - eapply Htrans; [eapply Hcont; eassumption|apply IH].
  - eapply Hret; eassumption.
Qed.

Lemma AcceptN_preserves (Q : World R -> World R -> Prop) (l : listener) :
  (forall w, Q w w) ->
  (forall w1 w2 w3, Q w1 w2 -> Q w2 w3 -> Q w1 w3) ->
  (forall incoming w, Q w (snd (Accept P l incoming w))) ->
  forall n incoming w, Q w (snd (AcceptN P n l incoming w)).
Proof.
  intros Hrefl Htrans Hacc n.
  induction n as [|n IH]; intros incoming w; simpl; [apply Hrefl|].
  pose proof (Hacc incoming w) as H1.
  destruct (Accept P l incoming w) as [[r rest] w1]; simpl in *.
  pose proof (IH rest w1) as H2.
  destruct (AcceptN P n l rest w1) as [[rs rest'] w']; simpl in *.
  eapply Htrans; eassumption.
Qed.

(** What holds of every result of the body holds of the result of the
    loop, as long as it holds of a blocked call. *)
Lemma Accept_result (Pr : Accepted -> Prop) (l : listener) :
  Pr Blocked ->
  (forall x w r w', acceptOnce P l x w = Return r w' -> Pr r) ->
  forall incoming w, Pr (fst (fst (Accept P l incoming w))).
Proof.
  intros Hb Hret incoming.
  induction incoming as [|x rest IH]; intros w; simpl; [exact Hb|].
  destruct (acceptOnce P l x w) as [w'|r w'] eqn:Hx; simpl.
  - apply IH.
  - eapply Hret; eassumption.
Qed.

Lemma acceptOnce_path (l : listener) (x : result QConn) (w : World R) :
  OncePath P l w x (acceptOnce P l x w).
Proof.
  destruct x as [q|e]; simpl; [|constructor].
  destruct (wrapConn P l q w) as [[c|e] w1] eqn:Hwrap;
    [|eapply OnceNotWrapped; eassumption].
  destruct (gated (l_transport l) c) eqn:Hgate;
    [eapply OnceGated; eassumption|].
  change (holePunching (addConn q c w1)) with (holePunching w1).
  change (heap (addConn q c w1)) with (heap w1).
  change {| addr := addrString (RemoteAddr q); peer := remotePeerID c |}
    with (keyOf q c).
  destruct (holePunching w1 !! keyOf q c) as [p|] eqn:Hkey;
    [|eapply OnceUnregistered; eassumption].
  destruct (heap w1 !! p) as [hp|] eqn:Hrec;
    [|eapply OnceNilRecord; eassumption].
  destruct (fulfilled hp) eqn:Hful.
  - eapply OnceFulfilled; eassumption.
  - eapply OnceDelivered; eassumption.
Qed.

Lemma OncePath_eq (l : listener) (x : result QConn) (w : World R) (it : Iteration) :
  OncePath P l w x it -> acceptOnce P l x w = it.
Proof.
  intros Hp.
  destruct Hp; unfold acceptOnce, keyOf in *; try reflexivity;
    repeat (match goal with
            | Hh : ?a = _ |- context [?a] => rewrite Hh
            end; cbn [holePunching heap addConn]);
    reflexivity.
Qed.

(** [wrapConn] leaves the tables of the transport alone and sends
    nothing. *)
Lemma wrapConn_tables (l : listener) (q : QConn) (w w1 : World R)
    (res : result conn) :
  wrapConn P l q w = (res, w1) ->
  holePunching w1 = holePunching w /\ heap w1 = heap w /\
  conns w1 = conns w /\
  exists evs, trace w1 = trace w ++ evs /\ forall p, sentOn p evs = [].
Proof.
  intros Hwrap.
  destruct (wrapConn_frame l q w) as (r & evs & Hw1 & Hall).
  rewrite Hwrap in Hw1. simpl in Hw1. subst w1. simpl.
  repeat split. exists evs. split; [reflexivity|].
  intros p. apply sentOn_scope. exact Hall.
Qed.

Lemma AtMostOnce_refl (p : loc) (w : World R) : AtMostOnce p w w.
Proof.
  exists []. split; [symmetry; apply app_nil_r|]. left. split; reflexivity.
Qed.

Lemma AtMostOnce_trans (p : loc) (w1 w2 w3 : World R) :
  AtMostOnce p w1 w2 -> AtMostOnce p w2 w3 -> AtMostOnce p w1 w3.
Proof.
  intros (evs1 & Ht1 & H1) (evs2 & Ht2 & H2).
  exists (evs1 ++ evs2).
  split; [rewrite Ht2, Ht1, app_assoc; reflexivity|].
  rewrite sentOn_app.
  destruct H1 as [[Hs1 Hh1]|(hp & c & Hh & Hf & Hs1 & Hh1)];
    destruct H2 as [[Hs2 Hh2]|(hp' & c' & Hh' & Hf' & Hs2 & Hh2)].
  - left. rewrite Hs1, Hs2. split; [reflexivity|congruence].
  - right. exists hp', c'. rewrite Hs1, Hs2. repeat split; try assumption.
    congruence.
  - right. exists hp, c. rewrite Hs1, Hs2. repeat split; try assumption.
    congruence.
  - exfalso. rewrite Hh1 in Hh'. inversion Hh'; subst hp'. discriminate.
Qed.

Lemma sentOn_send (p p0 : loc) (c : conn) :
  sentOn p [EvSend p0 c] = if Nat.eqb p0 p then [c] else [].
Proof. unfold sentOn; simpl. destruct (Nat.eqb p0 p); reflexivity. Qed.

Lemma AtMostOnce_step (p : loc) (l : listener) (x : result QConn)
    (w : World R) (it : Iteration) :
  OncePath P l w x it -> AtMostOnce p w (worldOf it).
Proof.
  intros Hp.
  destruct Hp as [e|q e w1 Hw|q c w1 Hw Hg|q c w1 Hw Hg Hk
                 |q c w1 p0 Hw Hg Hk Hr|q c w1 p0 hp Hw Hg Hk Hr Hf
                 |q c w1 p0 hp Hw Hg Hk Hr Hf];
    [apply AtMostOnce_refl|..];
    destruct (wrapConn_tables l q w w1 _ Hw)
      as (Hhp & Hheap & _ & evs & Htr & Hsent); simpl.
  - exists (evs ++ [EvCloseWithError q ConnResourceLimitExceeded ""]).
    simpl. rewrite Htr, app_assoc. split; [reflexivity|].
    left. rewrite sentOn_app, Hsent. split; [reflexivity|simpl; rewrite Hheap; reflexivity].
  - exists (evs ++ [EvConnCloseWithError c ConnGated "connection gated";
                    EvScope (CallDone (scope c))]).
    simpl. rewrite Htr, <- !app_assoc. split; [reflexivity|].
    left. rewrite sentOn_app, Hsent. split; [reflexivity|simpl; rewrite Hheap; reflexivity].
  - exists evs. split; [assumption|]. left. split; [apply Hsent|simpl; rewrite Hheap; reflexivity].
  - exists evs. split; [assumption|]. left. split; [apply Hsent|simpl; rewrite Hheap; reflexivity].
  - exists evs. split; [assumption|]. left. split; [apply Hsent|simpl; rewrite Hheap; reflexivity].
  - exists (evs ++ [EvSend p0 c]). unfold deliver, addConn; simpl.
    rewrite Htr, app_assoc. split; [reflexivity|].
    rewrite sentOn_app, Hsent, sentOn_send. simpl.
    destruct (Nat.eqb_spec p0 p) as [->|Hne].
    + right. exists hp, c. rewrite lookup_insert_eq.
      repeat split; try assumption. rewrite <- Hheap. exact Hr.
    + left. split; [reflexivity|]. rewrite lookup_insert_ne by assumption.
      rewrite Hheap. reflexivity.
Qed.

Lemma Accept_AtMostOnce (p : loc) (l : listener) (n : nat)
    (incoming : list (result QConn)) (w : World R) :
  AtMostOnce p w (snd (AcceptN P n l incoming w)).
Proof.
  apply (AcceptN_preserves (AtMostOnce p));
    [apply AtMostOnce_refl|apply AtMostOnce_trans|].
  apply (Accept_preserves (AtMostOnce p));
    [apply AtMostOnce_refl|apply AtMostOnce_trans|..].
  - intros x w0 w' Hx.
    change w' with (worldOf (Continue w')). apply (AtMostOnce_step p l x).
    rewrite <- Hx. apply acceptOnce_path.
  - intros x w0 r w' Hx.
    change w' with (worldOf (Return r w')). apply (AtMostOnce_step p l x).
    rewrite <- Hx. apply acceptOnce_path.
Qed.

(** The registry itself is not changed by the loop. *)
Lemma Accept_registry (l : listener) (n : nat)
    (incoming : list (result QConn)) (w : World R) :
  holePunching (snd (AcceptN P n l incoming w)) = holePunching w.
Proof.
  apply (AcceptN_preserves (fun w w' => holePunching w' = holePunching w));
    [reflexivity|intros; congruence|].
  apply (Accept_preserves (fun w w' => holePunching w' = holePunching w));
    [reflexivity|intros; congruence|..].
  - intros x w0 w' Hx. pose proof (acceptOnce_path l x w0) as Hp.
    rewrite Hx in Hp.
    inversion Hp; subst; simpl;
      match goal with
      | Hw : wrapConn P l _ _ = _ |- _ =>
          destruct (wrapConn_tables l _ _ _ _ Hw) as (Hhp & _); exact Hhp
      end.
  - intros x w0 r w' Hx. pose proof (acceptOnce_path l x w0) as Hp.
    rewrite Hx in Hp.
    inversion Hp; subst; simpl; try reflexivity;
      match goal with
      | Hw : wrapConn P l _ _ = _ |- _ =>
          destruct (wrapConn_tables l _ _ _ _ Hw) as (Hhp & _); exact Hhp
      end.
Qed.

(** C6.  An error of the underlying listener ends [Accept] with that
    error.  A session that cannot be wrapped is closed with the
    resource-limit code and the loop goes on with what the underlying
    listener yields next.  [Accept] returns an error only when the
    underlying listener reported it, after sessions only. *)
Theorem accept_error_classification (l : listener) :
  (forall e rest (w : World R),
     Accept P l (Err e :: rest) w = (Failed e, rest, w)) /\
  (forall q e (w w1 : World R) rest,
     wrapConn P l q w = (Err e, w1) ->
     Accept P l (Ok q :: rest) w =
       Accept P l rest (quic_CloseWithError q ConnResourceLimitExceeded "" w1) /\
     trace (quic_CloseWithError q ConnResourceLimitExceeded "" w1) =
       trace w1 ++ [EvCloseWithError q ConnResourceLimitExceeded ""]) /\
  (forall incoming (w w' : World R) e rest,
     Accept P l incoming w = (Failed e, rest, w') ->
     exists sessions,
       incoming = sessions ++ Err e :: rest /\
       Forall (fun x => isOk x = true) sessions).
Proof.
  split; [|split].
  - reflexivity.
  - intros q e w w1 rest Hwrap. split; [|reflexivity].
    apply Accept_continue. apply OncePath_eq.
    apply OnceNotWrapped with (e := e). exact Hwrap.
  - intros incoming.
    induction incoming as [|x incoming IH]; intros w w' e rest HA;
      [discriminate|].
    simpl in HA. pose proof (acceptOnce_path l x w) as Hp.
    destruct (acceptOnce P l x w) as [w0|r w0] eqn:Hx.
    + destruct (IH _ _ _ _ HA) as (pre & -> & Hall).
      exists (x :: pre). split; [reflexivity|].
      constructor; [|exact Hall].
      inversion Hp; reflexivity.
    + inversion HA; subst r rest w0.
      inversion Hp; subst. exists []. split; [reflexivity|constructor].
Qed.

Lemma newEvents_ext (w w' : World R) (evs : list Event) :
  trace w' = trace w ++ evs -> newEvents w w' = evs.
Proof. unfold newEvents. intros ->. apply drop_app_length. Qed.

Lemma SendsOnly_refl (ok : conn -> Prop) (w : World R) : SendsOnly ok w w.
Proof.
  exists []. split; [symmetry; apply app_nil_r|].
  intros p c Hc. inversion Hc.
Qed.

Lemma SendsOnly_trans (ok : conn -> Prop) (w1 w2 w3 : World R) :
  SendsOnly ok w1 w2 -> SendsOnly ok w2 w3 -> SendsOnly ok w1 w3.
Proof.
  intros (evs1 & Ht1 & H1) (evs2 & Ht2 & H2).
  exists (evs1 ++ evs2).
  split; [rewrite Ht2, Ht1, app_assoc; reflexivity|].
  intros p c. rewrite sentOn_app, elem_of_app. intros [Hc|Hc]; eauto.
Qed.

Lemma SendsOnly_step (l : listener) (x : result QConn) (w : World R)
    (it : Iteration) :
  OncePath P l w x it ->
  SendsOnly (fun c => gated (l_transport l) c = false) w (worldOf it).
Proof.
  intros Hp.
  destruct Hp as [e|q e w1 Hw|q c w1 Hw Hg|q c w1 Hw Hg Hk
                 |q c w1 p0 Hw Hg Hk Hr|q c w1 p0 hp Hw Hg Hk Hr Hf
                 |q c w1 p0 hp Hw Hg Hk Hr Hf];
    [apply SendsOnly_refl|..];
    destruct (wrapConn_tables l q w w1 _ Hw)
      as (_ & _ & _ & evs & Htr & Hsent);
    unfold deliver, addConn, closeWithError, quic_CloseWithError, scope_Done,
      emit; simpl.
  - eexists. rewrite Htr, <- app_assoc. split; [reflexivity|].
    intros p c. rewrite sentOn_app, Hsent. simpl. intros Hc. inversion Hc.
  - eexists. rewrite Htr, <- !app_assoc. split; [reflexivity|].
    intros p c'. rewrite sentOn_app, Hsent. simpl. intros Hc. inversion Hc.
  - exists evs. split; [assumption|]. intros p c'. rewrite Hsent.
    intros Hc. inversion Hc.
  - exists evs. split; [assumption|]. intros p c'. rewrite Hsent.
    intros Hc. inversion Hc.
  - exists evs. split; [assumption|]. intros p c'. rewrite Hsent.
    intros Hc. inversion Hc.
  - eexists. rewrite Htr, <- app_assoc. split; [reflexivity|].
    intros p c'. rewrite sentOn_app, Hsent, sentOn_send. simpl.
    destruct (Nat.eqb p0 p); intros Hc; [|inversion Hc].
    apply list_elem_of_singleton in Hc. subst c'. exact Hg.
Qed.

Lemma Accept_SendsOnly (l : listener) (incoming : list (result QConn))
    (w : World R) :
  SendsOnly (fun c => gated (l_transport l) c = false) w
    (snd (Accept P l incoming w)).
Proof.
  apply (Accept_preserves
           (SendsOnly (fun c => gated (l_transport l) c = false)));
    [apply SendsOnly_refl|apply SendsOnly_trans|..].
  - intros x w0 w' Hx.
    change w' with (worldOf (Continue w')). apply (SendsOnly_step l x).
    rewrite <- Hx. apply acceptOnce_path.
  - intros x w0 r w' Hx.
    change w' with (worldOf (Return r w')). apply (SendsOnly_step l x).
    rewrite <- Hx. apply acceptOnce_path.
Qed.

Lemma Accept_returns_ungated (l : listener) (incoming : list (result QConn))
    (w : World R) (c : conn) :
  fst (fst (Accept P l incoming w)) = Returned c ->
  gated (l_transport l) c = false.
Proof.
  revert c.
  apply (Accept_result
           (fun r => forall c, r = Returned c -> gated (l_transport l) c = false));
    [discriminate|].
  intros x w0 r w' Hx c Hr. pose proof (acceptOnce_path l x w0) as Hp.
  rewrite Hx in Hp. subst r.
  inversion Hp; subst; assumption.
Qed.

Lemma gated_with (t : transport) (g : ConnectionGater) (c : conn) :
  gater t = Some g ->
  gated t c =
    negb (InterceptAccept g c && InterceptSecured g DirInbound (remotePeerID c) c).
Proof. unfold gated. intros ->. reflexivity. Qed.

Lemma Accept_one_AtMostOnce (p : loc) (l : listener)
    (incoming : list (result QConn)) (w : World R) :
  AtMostOnce p w (snd (Accept P l incoming w)).
Proof.
  pose proof (Accept_AtMostOnce p l 1 incoming w) as Hone.
  simpl in Hone.
  destruct (Accept P l incoming w) as [[r rest] w']. exact Hone.
Qed.

(** C5.  With a gater configured: a wrapped connection that either
    interception rejects is closed with the gated code, which is not the
    code of any other close, its scope going with it, and the loop goes
    on; whatever [Accept]
    returns, and whatever it sends on a channel of the registry, has passed
    both interceptions; and under a gater that rejects every connection
    [Accept] returns no connection, sends nothing and leaves every record
    as it was. *)
Theorem gating_enforcement (l : listener) (g : ConnectionGater) :
  gater (l_transport l) = Some g ->
  (forall q c (w w1 : World R) rest,
     wrapConn P l q w = (Ok c, w1) ->
     InterceptAccept g c = false \/
     InterceptSecured g DirInbound (remotePeerID c) c = false ->
     Accept P l (Ok q :: rest) w =
       Accept P l rest
         (closeWithError c ConnGated "connection gated" (addConn q c w1)) /\
     trace (closeWithError c ConnGated "connection gated" (addConn q c w1)) =
       trace w1 ++ [EvConnCloseWithError c ConnGated "connection gated";
                    EvScope (CallDone (scope c))] /\
     ConnGated <> ConnResourceLimitExceeded /\ ConnGated <> ConnNoError) /\
  (forall incoming (w : World R),
     let res := fst (fst (Accept P l incoming w)) in
     let evs := newEvents w (snd (Accept P l incoming w)) in
     (forall c, res = Returned c ->
        InterceptAccept g c = true /\
        InterceptSecured g DirInbound (remotePeerID c) c = true) /\
     (forall p c, c ∈ sentOn p evs ->
        InterceptAccept g c = true /\
        InterceptSecured g DirInbound (remotePeerID c) c = true)) /\
  ((forall c, InterceptAccept g c = false \/
              InterceptSecured g DirInbound (remotePeerID c) c = false) ->
   forall incoming (w : World R),
     let res := fst (fst (Accept P l incoming w)) in
     let w' := snd (Accept P l incoming w) in
     (forall c, res <> Returned c) /\
     (forall p, sentOn p (newEvents w w') = []) /\
     heap w' = heap w).
Proof.
  intros Hg.
  assert (Hpass : forall c, gated (l_transport l) c = false ->
            InterceptAccept g c = true /\
            InterceptSecured g DirInbound (remotePeerID c) c = true).
  { intros c Hc. rewrite (gated_with _ g c Hg) in Hc.
    apply negb_false_iff, andb_true_iff in Hc. exact Hc. }
  assert (Hsends : forall incoming (w : World R) p c,
            c ∈ sentOn p (newEvents w (snd (Accept P l incoming w))) ->
            gated (l_transport l) c = false).
  { intros incoming w p c Hc.
    destruct (Accept_SendsOnly l incoming w) as (evs & Htr & Hok).
    rewrite (newEvents_ext _ _ _ Htr) in Hc. eapply Hok; eassumption. }
  split; [|split].
  - intros q c w w1 rest Hwrap Hrej.
    split; [|split; [|split; discriminate]].
    2:{ unfold closeWithError, scope_Done, emit; simpl.
        rewrite <- app_assoc. reflexivity. }
    apply Accept_continue. apply OncePath_eq.
    apply OnceGated; [exact Hwrap|].
    rewrite (gated_with _ g c Hg).
    apply negb_true_iff, andb_false_iff. exact Hrej.
  - intros incoming w res evs. subst res evs. split.
    + intros c Hc. apply Hpass. eapply Accept_returns_ungated; eassumption.
    + intros p c Hc. apply Hpass. eapply Hsends; eassumption.
  - intros Hall incoming w res w'. subst res w'.
    assert (Hno : forall c, gated (l_transport l) c = false -> False).
    { intros c Hc. destruct (Hpass c Hc) as [Ha Hs].
      destruct (Hall c); congruence. }
    assert (Hnone : forall p,
              sentOn p (newEvents w (snd (Accept P l incoming w))) = []).
    { intros p.
      destruct (sentOn p (newEvents w (snd (Accept P l incoming w))))
        as [|c cs] eqn:Hs; [reflexivity|].
      exfalso. apply (Hno c). apply (Hsends incoming w p c).
      rewrite Hs. left. }
    split; [|split; [exact Hnone|]].
    + intros c Hc. apply (Hno c).
      eapply Accept_returns_ungated; eassumption.
    + apply map_eq. intros p.
      destruct (Accept_one_AtMostOnce p l incoming w)
        as (evs & Htr & [[_ Hh]|(hp & c & _ & _ & Hs & _)]);
        [exact Hh|].
      exfalso. specialize (Hnone p).
      rewrite (newEvents_ext _ _ _ Htr), Hs in Hnone. discriminate.
Qed.

(** C1.  A wrapped connection that is not gated and whose key is in the
    registry: when the record is pending, the connection is sent on the
    channel of the record, the record is marked fulfilled, and the loop
    goes on without returning; when the record is fulfilled, [Accept]
    returns the connection and sends nothing.  Over any number of calls of
    [Accept], a record is left alone or receives exactly one connection,
    which fulfils it; a fulfilled record receives none and stays as it is;
    and the registry keeps pointing to the same records. *)
Theorem rendezvous_exclusivity (l : listener) (q : QConn) (c : conn)
    (w w1 : World R) (rest : list (result QConn)) (p : loc)
    (hp : activeHolePunch) :
  wrapConn P l q w = (Ok c, w1) ->
  gated (l_transport l) c = false ->
  holePunching w !! keyOf q c = Some p ->
  heap w !! p = Some hp ->
  (fulfilled hp = false ->
     Accept P l (Ok q :: rest) w =
       Accept P l rest (deliver p hp c (addConn q c w1)) /\
     heap (deliver p hp c (addConn q c w1)) !! p =
       Some {| connCh := connCh hp ++ [c]; fulfilled := true |} /\
     sentOn p (newEvents w (deliver p hp c (addConn q c w1))) = [c]) /\
  (fulfilled hp = true ->
     Accept P l (Ok q :: rest) w = (Returned c, rest, addConn q c w1) /\
     sentOn p (newEvents w (addConn q c w1)) = [] /\
     heap (addConn q c w1) !! p = Some hp) /\
  (forall n incoming (w0 : World R) p0,
     let w' := snd (AcceptN P n l incoming w0) in
     AtMostOnce p0 w0 w' /\
     length (sentOn p0 (newEvents w0 w')) <= 1 /\
     (forall hp0, heap w0 !! p0 = Some hp0 -> fulfilled hp0 = true ->
        sentOn p0 (newEvents w0 w') = [] /\ heap w' !! p0 = Some hp0) /\
     holePunching w' = holePunching w0).
Proof.
  intros Hwrap Hgate Hkey Hrec.
  destruct (wrapConn_tables l q w w1 _ Hwrap)
    as (Hhp & Hheap & _ & evs & Htr & Hsent).
  rewrite <- Hhp in Hkey. rewrite <- Hheap in Hrec.
  split; [|split].
  - intros Hful. split; [|split].
    + apply Accept_continue. apply OncePath_eq.
      apply OnceDelivered; assumption.
    + unfold deliver; simpl. apply lookup_insert_eq.
    + rewrite (newEvents_ext w _ (evs ++ [EvSend p c])).
      * rewrite sentOn_app, Hsent, sentOn_send, Nat.eqb_refl. reflexivity.
      * unfold deliver, addConn; simpl. rewrite Htr, app_assoc. reflexivity.
  - intros Hful. split; [|split].
    + apply Accept_return. apply OncePath_eq.
      apply OnceFulfilled with (p := p) (hp := hp); assumption.
    + rewrite (newEvents_ext w _ evs); [apply Hsent|exact Htr].
    + exact Hrec.
  - intros n incoming w0 p0 w'. subst w'.
    pose proof (Accept_AtMostOnce p0 l n incoming w0) as Hamo.
    split; [exact Hamo|].
    destruct Hamo as (evs0 & Htr0 & Hcase).
    rewrite (newEvents_ext _ _ _ Htr0).
    split; [|split].
    + destruct Hcase as [[-> _]|(hp0 & c0 & _ & _ & -> & _)]; simpl; lia.
    + intros hp0 Hrec0 Hful0.
      destruct Hcase as [[Hs Hh]|(hp1 & c0 & Hrec1 & Hful1 & _)].
      * split; [exact Hs|]. rewrite Hh. exact Hrec0.
      * exfalso. rewrite Hrec0 in Hrec1. inversion Hrec1; subst hp1.
        congruence.
    + apply Accept_registry.
Qed.

Lemma table_fold (all addrs : list ma.Multiaddr) (m : gmap N ma.Multiaddr) :
  (forall a, a ∈ addrs -> a ∈ all) ->
  (forall v a, m !! v = Some a ->
     v = quic.Version1 /\ a ∈ all /\
     isOk (ma.ValueForProtocol a ma.P_QUIC_V1) = true) ->
  forall v a,
    foldl (fun (m : gmap N ma.Multiaddr) addr =>
             match ma.ValueForProtocol addr ma.P_QUIC_V1 with
             | Ok _ => <[quic.Version1 := addr]> m
             | Err _ => m
             end) m addrs !! v = Some a ->
    v = quic.Version1 /\ a ∈ all /\
    isOk (ma.ValueForProtocol a ma.P_QUIC_V1) = true.
Proof.
  revert m. induction addrs as [|x addrs IH]; intros m Hsub Hm v a; simpl;
    [apply Hm|].
  apply IH.
  - intros a' Ha'. apply Hsub. right. exact Ha'.
  - intros v' a'.
    destruct (ma.ValueForProtocol x ma.P_QUIC_V1) as [val|err] eqn:Hx;
      [|apply Hm].
    rewrite lookup_insert_Some. intros [[<- <-]|[_ Hold]]; [|apply Hm, Hold].
    split; [reflexivity|]. split; [apply Hsub; left|].
    rewrite Hx. reflexivity.
Qed.

(** The table of a new listener has at most the entry of QUIC version 1,
    and that entry is one of the addresses listened on that carries the
    QUIC v1 component. *)
Lemma newListener_table (ln : Listener) (t : transport) (lp : peer.ID)
    (key : string) (l : listener) :
  newListener ln t lp key = Ok l ->
  forall v a, localMultiaddrs l !! v = Some a ->
    v = quic.Version1 /\ a ∈ Multiaddrs ln /\
    isOk (ma.ValueForProtocol a ma.P_QUIC_V1) = true.
Proof.
  unfold newListener. intros Hl. inversion Hl; subst l; clear Hl. simpl.
  apply table_fold; [auto|].
  intros v a Hv. rewrite lookup_empty in Hv. discriminate.
Qed.



End AcceptLoop.

Lemma wrapConn_releases_once_witness :
  let l := doubles.listenerOn doubles.openTransport in
  let q := doubles.sessionNoCert in
  let w := doubles.quiet 1 in
  let opened :=
    extend (doubles.mkQuota 1 0 [])
      [EvScope (CallOpenConnection DirInbound false doubles.remoteMa (Ok 0))] w in
  ToQuicMultiaddr doubles.packages (RemoteAddr q) (Version q) = Ok doubles.remoteMa /\
  Acquired doubles.packages q doubles.remoteMa w 0 opened /\
  doneCount 0 (newEvents w (snd (wrapConn doubles.packages l q w))) = 1.
Proof.
  intros l q w opened.
  assert (Haddr : ToQuicMultiaddr doubles.packages (RemoteAddr q) (Version q) =
                  Ok doubles.remoteMa) by reflexivity.
  assert (Hacq : Acquired doubles.packages q doubles.remoteMa w 0 opened)
    by (apply AcquiredOpened; reflexivity).
  split; [exact Haddr|]. split; [exact Hacq|].
  destruct (wrapConn_releases_once doubles.packages l q w opened
              doubles.remoteMa 0 Haddr Hacq) as (_ & Hres & _).
  exact (proj1 Hres).
Defined.

Lemma wrapConn_scope_acquisition_witness :
  let l := doubles.listenerOn doubles.openTransport in
  let q := doubles.sessionScoped in
  let w := doubles.quiet 0 in
  UnwrapConnManagementScope doubles.packages (Context q) = (Some 40, None) /\
  openCount (newEvents w (snd (wrapConn doubles.packages l q w))) = 0 /\
  exists c, fst (wrapConn doubles.packages l q w) = Ok c /\ scope c = 40.
Proof.
  intros l q w. split; [reflexivity|].
  destruct (wrapConn_scope_acquisition doubles.packages l q w) as (Hatt & _).
  destruct (Hatt doubles.remoteMa 40) as (Hopen & _ & Hscope);
    [reflexivity..|].
  split; [exact Hopen|].
  eexists. split; [reflexivity|]. apply Hscope. reflexivity.
Defined.

Lemma accept_error_classification_witness :
  let l := doubles.listenerOn doubles.openTransport in
  let w := doubles.quiet 1 in
  fst (wrapConn doubles.packages l doubles.sessionNoCert w) =
    Err "expected one certificates in the chain" /\
  Accept doubles.packages l
    [Ok doubles.sessionNoCert; Err "listener closed"] w =
  (Failed "listener closed", [],
   quic_CloseWithError doubles.sessionNoCert ConnResourceLimitExceeded ""
     (snd (wrapConn doubles.packages l doubles.sessionNoCert w))).
Proof.
  intros l w. split; [reflexivity|].
  destruct (accept_error_classification doubles.packages l) as (Hfatal & Hwrap & _).
  destruct (Hwrap doubles.sessionNoCert
              "expected one certificates in the chain" w
              (snd (wrapConn doubles.packages l doubles.sessionNoCert w))
              [Err "listener closed"]) as (-> & _); [reflexivity|].
  apply Hfatal.
Defined.

Lemma gating_enforcement_witness :
  let l := doubles.listenerOn (doubles.gatedTransport doubles.denyAll) in
  let w := doubles.punching in
  gater (l_transport l) = Some doubles.denyAll /\
  (forall c, fst (fst (Accept doubles.packages l
                         [Ok (doubles.session 1); Ok (doubles.session 2)] w))
             <> Returned c) /\
  heap (snd (Accept doubles.packages l
               [Ok (doubles.session 1); Ok (doubles.session 2)] w)) = heap w.
Proof.
  intros l w. split; [reflexivity|].
  destruct (gating_enforcement doubles.packages l doubles.denyAll) as (_ & _ & Hall);
    [reflexivity|].
  destruct (Hall (fun c => or_introl eq_refl)
              [Ok (doubles.session 1); Ok (doubles.session 2)] w)
    as (Hret & _ & Hheap).
  split; assumption.
Defined.

Lemma rendezvous_exclusivity_witness :
  let l := doubles.listenerOn doubles.openTransport in
  let w := doubles.punching in
  let q := doubles.session 1 in
  let c := doubles.wrapped 1 0 in
  let w1 := snd (wrapConn doubles.packages l q w) in
  let hp := mkHolePunch [] false in
  wrapConn doubles.packages l q w = (Ok c, w1) /\
  gated (l_transport l) c = false /\
  holePunching w !! keyOf q c = Some 5 /\
  heap w !! 5 = Some hp /\
  fulfilled hp = false /\
  heap (deliver 5 hp c (addConn q c w1)) !! 5 = Some (mkHolePunch [c] true) /\
  sentOn 5 (newEvents w (deliver 5 hp c (addConn q c w1))) = [c].
Proof.
  intros l w q c w1 hp.
  assert (Hwrap : wrapConn doubles.packages l q w = (Ok c, w1)) by reflexivity.
  assert (Hgate : gated (l_transport l) c = false) by reflexivity.
  assert (Hkey : holePunching w !! keyOf q c = Some 5) by reflexivity.
  assert (Hrec : heap w !! 5 = Some hp) by reflexivity.
  repeat (split; [assumption || reflexivity|]).
  destruct (rendezvous_exclusivity doubles.packages l q c w w1 [] 5 hp
              Hwrap Hgate Hkey Hrec) as (Hpending & _).
  destruct (Hpending eq_refl) as (_ & Hheap & Hsent).
  split; assumption.
Defined.


(** The scenario of section 8 of the specification: two sessions of the
    same peer and address arrive while a hole punch towards that peer is
    pending.  The first is handed over on the channel of the record, the
    second is what [Accept] returns. *)
Example hole_punch_scenario :
  let l := doubles.listenerOn doubles.openTransport in
  let '(r, rest, w') :=
    Accept doubles.packages l
      [Ok (doubles.session 1); Ok (doubles.session 2)] doubles.punching in
  r = Returned (doubles.wrapped 2 1) /\
  rest = [] /\
  heap w' !! 5 = Some (mkHolePunch [doubles.wrapped 1 0] true) /\
  sentOn 5 (trace w') = [doubles.wrapped 1 0].
Proof. vm_compute. repeat split. Qed.

(** A gater that stops alice at the second interception: her sessions are
    closed with the gated code, one after the other, and the pending hole
    punch is left as it was. *)
Example gated_peer_scenario :
  let l := doubles.listenerOn
             (doubles.gatedTransport (doubles.denyPeer "Qmalice")) in
  let '(r, rest, w') :=
    Accept doubles.packages l
      [Ok (doubles.session 1); Ok (doubles.session 2)] doubles.punching in
  r = Blocked /\
  heap w' !! 5 = Some (mkHolePunch [] false) /\
  List.filter (fun e => match e with
                        | EvConnCloseWithError _ ConnGated _ => true
                        | _ => false
                        end) (trace w') =
    [EvConnCloseWithError (doubles.wrapped 1 0) ConnGated "connection gated";
     EvConnCloseWithError (doubles.wrapped 2 1) ConnGated "connection gated"].
Proof. vm_compute. repeat split. Qed.


End listener_facts.

(** ** More on the relay client *)
Module client_more.
Import network client client_setup.

Section Dial.
Context {R : Type} `{ResourceManager R}.

(** X11.  When the resource manager refuses the connection or the peer, [Dial]
    returns the manager's error and has reached out to nobody: no raw
    dial, no hop tag, no upgrade, and the open sessions are those from
    before. *)
Theorem Dial_refused_stays_local (c : Client) (a : ma.Multiaddr) (p : peer.ID)
    (w : World R) (e : error) :
  (exists r1, OpenConnection (rcmgr w) DirOutbound false a = (Err e, r1)) \/
  (exists s r1 r2,
     OpenConnection (rcmgr w) DirOutbound false a = (Ok s, r1) /\
     SetPeer r1 s p = (Some e, r2)) ->
  let evs := newEvents w (snd (Dial c a p w)) in
  fst (Dial c a p w) = Err e /\
  dials evs = [] /\ tagged evs = [] /\ upgrades evs = [] /\
  sessions (snd (Dial c a p w)) = sessions w.
Proof.
  intros Hrefused evs. subst evs.
  pose proof (client_facts.Dial_path c a p w) as Hpath.
  destruct (Dial c a p w) as [res w']; simpl in *.
  inversion Hpath
    as [e0 r1 Ho
       |s r1 e0 r2 Ho Hs
       |s r1 r2 e0 Ho Hs Hd
       |s r1 r2 conn e0 closed Ho Hs Hd Hu
       |s r1 r2 conn Ho Hs Hd Hu];
    subst; erewrite client_facts.newEvents_app by reflexivity; simpl;
    destruct Hrefused as [(r1' & Ho')|(s' & r1' & r2' & Ho' & Hs')];
    rewrite Ho' in Ho; inversion Ho; subst;
    try (rewrite Hs' in Hs; inversion Hs; subst);
    repeat split.
Qed.

(** X12.  Whatever the outcome, [Dial] makes at most one raw dial, to the address
    and peer it was given; the sessions it tags as hops are exactly the
    sessions the raw dial produced, also when the upgrade fails afterwards;
    and each of them is upgraded once, outbound, for the peer given and on
    the scope opened by this call. *)
Theorem Dial_tags_what_it_dials (c : Client) (a : ma.Multiaddr) (p : peer.ID)
    (w : World R) :
  let evs := newEvents w (snd (Dial c a p w)) in
  (dials evs = [] \/ dials evs = [(a, p)]) /\
  tagged evs = dialed evs /\
  length (dialed evs) <= 1 /\
  (forall s r1,
     OpenConnection (rcmgr w) DirOutbound false a = (Ok s, r1) ->
     upgrades evs = map (fun conn => (conn, DirOutbound, p, s)) (dialed evs)) /\
  (forall cc, fst (Dial c a p w) = Ok cc ->
     dialed evs = [rawConn (inner cc)] /\
     sessions (snd (Dial c a p w)) = rawConn (inner cc) :: sessions w /\
     direction (inner cc) = DirOutbound /\ remotePeer (inner cc) = p).
Proof.
  intros evs. subst evs.
  pose proof (client_facts.Dial_path c a p w) as Hpath.
  destruct (Dial c a p w) as [res w']; simpl in *.
  inversion Hpath
    as [e0 r1 Ho
       |s r1 e0 r2 Ho Hs
       |s r1 r2 e0 Ho Hs Hd
       |s r1 r2 conn e0 closed Ho Hs Hd Hu
       |s r1 r2 conn Ho Hs Hd Hu];
    subst; erewrite client_facts.newEvents_app by reflexivity; simpl;
    (split; [auto|]); (split; [reflexivity|]); (split; [lia|]);
    (split;
     [intros s0 r0 Ho0; rewrite Ho0 in Ho; inversion Ho; subst; reflexivity
     |intros cc Hcc; inversion Hcc; subst; simpl; repeat split]).
Qed.

End Dial.

Lemma Dial_refused_stays_local_witness :
  let c := doubles.relayClient false false in
  let w := doubles.idle 1 ["QmEve"] in
  fst (Dial c doubles.relayAddr "QmEve" w) = Err doubles.errLimit /\
  dials (newEvents w (snd (Dial c doubles.relayAddr "QmEve" w))) = [].
Proof.
  intros c w.
  destruct (Dial_refused_stays_local c doubles.relayAddr "QmEve" w
              doubles.errLimit) as (Hres & Hdials & _).
  - right. exists 0, (doubles.mkQuota 1 0 ["QmEve"]), (doubles.mkQuota 1 0 ["QmEve"]).
    split; reflexivity.
  - split; assumption.
Defined.

(** X13.  [Listen] takes exactly the addresses that [CanDial] accepts; the only
    error it returns is that the circuit-relay component is missing; and
    the listener it builds is the same whatever else the address says. *)
Theorem Listen_iff_CanDial (c : Client) (addr : ma.Multiaddr) :
  (isOk (Listen c addr) = true <-> CanDial c addr = true) /\
  (forall e, Listen c addr = Err e -> e = ma.ErrProtocolNotFound) /\
  (forall addr' l l',
     Listen c addr = Ok l -> Listen c addr' = Ok l' -> l = l').
Proof.
  unfold Listen, CanDial. split; [|split].
  - destruct (ma.ValueForProtocol addr ma.P_CIRCUIT); simpl; split; congruence.
  - intros e.
    assert (Hnf : forall m e', ma.ValueForProtocol m ma.P_CIRCUIT = Err e' ->
                    e' = ma.ErrProtocolNotFound).
    { intros m e'. induction m as [|x m IH]; simpl.
      - intros He. inversion He. reflexivity.
      - destruct (Z.eqb (ma.Code x) ma.P_CIRCUIT); [discriminate|exact IH]. }
    destruct (ma.ValueForProtocol addr ma.P_CIRCUIT) as [v|e'] eqn:Hv;
      [discriminate|].
    intros He. inversion He; subst e'. apply (Hnf addr). exact Hv.
  - intros addr' l l'.
    destruct (ma.ValueForProtocol addr ma.P_CIRCUIT); [|discriminate].
    destruct (ma.ValueForProtocol addr' ma.P_CIRCUIT); [|discriminate].
    congruence.
Qed.

(** X14.  [AddTransport] returns nil exactly when it has started a client, and
    it does so whenever the network is a transport network, [New] builds
    a client, and the network takes it as a transport and agrees to
    listen on the circuit address.  The client started is the one [New]
    built; by then the network has answered nil both to adding it and to
    listening on the circuit address, the only address it was asked to
    listen on, which is an address the client itself accepts; the calls
    made are these four in this order, starting being the last. *)
Theorem AddTransport_starts_iff_ok (h : Host) (u : Upgrader)
    (tr : list SetupEvent) :
  exists evs,
    snd (AddTransport h u tr) = tr ++ evs /\
    (fst (AddTransport h u tr) = None <-> started evs <> []) /\
    (forall c, c ∈ started evs ->
       New h u = Ok c /\
       net_AddTransport h c = None /\
       net_Listen h circuitAddr = None /\
       evs = [EvNew (Ok c); EvAddTransport c None;
              EvNetListen circuitAddr None; EvStart c] /\
       added evs = [c] /\
       listenedOn evs = [circuitAddr] /\ listening evs = [circuitAddr] /\
       last evs = Some (EvStart c) /\ started evs = [c] /\
       CanDial c circuitAddr = true /\ isOk (Listen c circuitAddr) = true) /\
    (forall c,
       isTransportNetwork h = true -> New h u = Ok c ->
       net_AddTransport h c = None -> net_Listen h circuitAddr = None ->
       fst (AddTransport h u tr) = None) /\
    (forall a e, EvNetListen a (Some e) ∈ evs -> started evs = []).
Proof.
  unfold AddTransport.
  destruct (isTransportNetwork h); simpl.
  2:{ exists []. rewrite app_nil_r. split; [reflexivity|].
      split; [split; [discriminate|intros Hs; exfalso; apply Hs; reflexivity]|].
      split; [intros c Hc; inversion Hc|].
      split; [discriminate|reflexivity]. }
  destruct (New h u) as [c|e] eqn:Hnew.
  2:{ eexists. split; [reflexivity|]. simpl.
      split; [split; [discriminate|intros Hs; exfalso; apply Hs; reflexivity]|].
      split; [intros c Hc; inversion Hc|].
      split; [discriminate|reflexivity]. }
  destruct (net_AddTransport h c) as [e|] eqn:Hadd.
  { eexists. split; [reflexivity|]. simpl.
    split; [split; [discriminate|intros Hs; exfalso; apply Hs; reflexivity]|].
    split; [intros c' Hc; inversion Hc|].
    split; [|reflexivity].
    intros c' _ Hc' Hadd'. congruence. }
  destruct (net_Listen h circuitAddr) as [e|] eqn:Hlisten.
  { eexists. split; [reflexivity|]. simpl.
    split; [split; [discriminate|intros Hs; exfalso; apply Hs; reflexivity]|].
    split; [intros c' Hc; inversion Hc|].
    split; [|reflexivity].
    intros c' _ _ _ Hl. discriminate. }
  eexists. split; [reflexivity|]. simpl.
  split; [split; [discriminate|reflexivity]|].
  split; [|split; [reflexivity|]].
  - intros c' Hc. apply list_elem_of_singleton in Hc. subst c'.
    repeat split; assumption.
  - intros a e He. exfalso.
    repeat (apply elem_of_cons in He as [He|He]; [discriminate|]).
    inversion He.
Qed.

(** X15.  When [AddTransport] fails, no client has been started.  If the network
    had taken the client as a transport by then, the failure is the
    network's refusal to listen on the circuit address, returned with its
    message behind the words of [AddTransport], and the client is left
    with the network. *)
Theorem AddTransport_failure (h : Host) (u : Upgrader) (tr : list SetupEvent)
    (e : error) :
  fst (AddTransport h u tr) = Some e ->
  exists evs,
    snd (AddTransport h u tr) = tr ++ evs /\
    started evs = [] /\
    (forall c, c ∈ added evs ->
       New h u = Ok c /\
       exists e', net_Listen h circuitAddr = Some e' /\
                  e = "error listening to circuit addr: " +:+ e') /\
    (added evs = [] ->
       (isTransportNetwork h = false /\
        e = networkString h +:+ " is not a transport network" /\ evs = []) \/
       (exists e', New h u = Err e' /\
                   e = "error constructing circuit client: " +:+ e') \/
       (exists c e', New h u = Ok c /\ net_AddTransport h c = Some e' /\
                     e = "error adding circuit transport: " +:+ e' /\
                     listenedOn evs = [])).
Proof.
  unfold AddTransport.
  destruct (isTransportNetwork h); simpl.
  2:{ intros He. inversion He; subst e. exists []. rewrite app_nil_r.
      split; [reflexivity|]. split; [reflexivity|].
      split; [intros c Hc; inversion Hc|]. intros _. left. repeat split. }
  destruct (New h u) as [c|e0] eqn:Hnew.
  2:{ intros He. inversion He; subst e. eexists. split; [reflexivity|]. simpl.
      split; [reflexivity|]. split; [intros c Hc; inversion Hc|].
      intros _. right. left. eauto. }
  destruct (net_AddTransport h c) as [e0|] eqn:Hadd.
  { intros He. inversion He; subst e. eexists. split; [reflexivity|]. simpl.
    split; [reflexivity|]. split; [intros c' Hc; inversion Hc|].
    intros _. right. right. exists c, e0. repeat split. exact Hadd. }
  destruct (net_Listen h circuitAddr) as [e0|] eqn:Hlisten; [|discriminate].
  intros He. inversion He; subst e. eexists. split; [reflexivity|]. simpl.
  split; [reflexivity|]. split.
  - intros c' Hc. apply list_elem_of_singleton in Hc. subst c'.
    split; [reflexivity|]. exists e0. split; reflexivity.
  - discriminate.
Qed.

Lemma AddTransport_failure_witness :
  let r := AddTransport (plainHost false) (fun _ _ _ _ => Upgraded) [] in
  fst r = Some "error listening to circuit addr: no listener" /\
  exists evs, snd r = [] ++ evs /\ started evs = [] /\
              added evs = [doubles.relayClient true true].
Proof.
  intros r. split; [reflexivity|].
  destruct (AddTransport_failure (plainHost false) (fun _ _ _ _ => Upgraded) []
              "error listening to circuit addr: no listener")
    as (evs & Hevs & Hstarted & _); [reflexivity|].
  exists evs. split; [exact Hevs|]. split; [exact Hstarted|].
  simpl in Hevs. rewrite <- Hevs. reflexivity.
Defined.

End client_more.

(** ** More on the QUIC listener *)
Module listener_more.
Import network libp2pquic libp2pquic_trace.

Lemma table_last (addrs : list ma.Multiaddr) (m : gmap N ma.Multiaddr) :
  foldl (fun (m : gmap N ma.Multiaddr) addr =>
           match ma.ValueForProtocol addr ma.P_QUIC_V1 with
           | Ok _ => <[quic.Version1 := addr]> m
           | Err _ => m
           end) m addrs !! quic.Version1 =
  match last (quicV1 addrs) with
  | Some a => Some a
  | None => m !! quic.Version1
  end.
Proof.
  revert m. induction addrs as [|x addrs IH]; intros m; simpl; [reflexivity|].
  rewrite IH. unfold quicV1; simpl.
  destruct (ma.ValueForProtocol x ma.P_QUIC_V1) as [v|e]; simpl; [|reflexivity].
  rewrite last_cons, lookup_insert_eq.
  destruct (last (List.filter
                    (fun a => isOk (ma.ValueForProtocol a ma.P_QUIC_V1)) addrs));
    reflexivity.
Qed.

(** X1.  [newListener] never fails.  Its table holds, under QUIC version 1, the
    last of the addresses listened on that carries the QUIC v1 component,
    nothing when there is none, and nothing under any other version; the
    other fields are the arguments. *)
Theorem newListener_keeps_last_v1 (ln : Listener) (t : transport)
    (lp : peer.ID) (key : string) :
  exists l,
    newListener ln t lp key = Ok l /\
    localMultiaddrs l !! quic.Version1 = last (quicV1 (Multiaddrs ln)) /\
    (forall v, v <> quic.Version1 -> localMultiaddrs l !! v = None) /\
    reuseListener l = ln /\ l_transport l = t /\
    l_localPeer l = lp /\ privKey l = key.
Proof.
  eexists. split; [reflexivity|]. simpl. split; [|split].
  - rewrite table_last, lookup_empty.
    destruct (last (quicV1 (Multiaddrs ln))); reflexivity.
  - intros v Hv.
    destruct (foldl _ ∅ (Multiaddrs ln) !! v) as [a|] eqn:Hq; [|reflexivity].
    exfalso. apply Hv.
    eapply (listener_facts.table_fold (Multiaddrs ln) (Multiaddrs ln) ∅);
      [auto| |exact Hq].
    intros v' a' Hv'. rewrite lookup_empty in Hv'. discriminate.
  - repeat split.
Qed.

(** The events of a path of [wrapConn], from the world before the call. *)
Ltac path_events Hpath :=
  inversion Hpath
    as [e0 Ha
       |rm0 e0 r0 Ha Hctx Hopen
       |rm0 s0 w0 e0 Ha Hacq0 Hpk
       |rm0 s0 w0 pk e0 Ha Hacq0 Hpk Hid
       |rm0 s0 w0 pk pid e0 r2 Ha Hacq0 Hpk Hid Hset
       |rm0 s0 w0 pk pid r2 Ha Hacq0 Hpk Hid Hset Hlm
       |rm0 s0 w0 pk pid r2 lm Ha Hacq0 Hpk Hid Hset Hlm];
  subst;
  try match goal with
      | Hacq : Acquired _ _ _ _ _ _ |- _ =>
          let r1 := fresh "r1" in
          let evs0 := fresh "evs0" in
          let Hev := fresh "Hev" in
          destruct (listener_facts.Acquired_extend _ _ _ _ _ _ Hacq)
            as (r1 & evs0 & -> & Hev);
          rewrite listener_facts.extend_extend
      end;
  rewrite ?listener_facts.newEvents_extend, ?listener_facts.newEvents_same.

Section Wrap.
Context {R : Type} `{ResourceManager R}.
Variable P : Packages.

Lemma trace_ext (w w' : World R) (evs : list Event) :
  trace w' = trace w ++ evs -> newEvents w w' = evs.
Proof. unfold newEvents. intros ->. apply drop_app_length. Qed.

(** X3.  A connection that [wrapConn] returns is made of what the session and
    the listener say: it wraps the session, its remote address is the
    one derived from the session, its remote key is the one of the
    certificate chain and its remote identity the one of that key, its
    local address is the entry of the table for the version of the
    session.  The last thing [wrapConn] did was to bind the scope of the
    connection to that identity, and it bound nothing else. *)
Theorem wrapConn_binds_identity (l : listener) (q : QConn) (w w' : World R)
    (c : conn) :
  wrapConn P l q w = (Ok c, w') ->
  quicConn c = q /\
  localPeer c = l_localPeer l /\
  localMultiaddrs l !! Version q = Some (localMultiaddr c) /\
  ToQuicMultiaddr P (RemoteAddr q) (Version q) = Ok (remoteMultiaddr c) /\
  PubKeyFromCertChain P (PeerCertificates q) = Ok (remotePubKey c) /\
  IDFromPublicKey P (remotePubKey c) = Ok (remotePeerID c) /\
  setPeers (newEvents w w') = [(scope c, remotePeerID c)] /\
  last (newEvents w w') =
    Some (EvScope (CallSetPeer (scope c) (remotePeerID c) None)).
Proof.
  intros Hwrap.
  pose proof (listener_facts.wrapConn_path P l q w) as Hpath.
  rewrite Hwrap in Hpath. simpl in Hpath.
  path_events Hpath; simpl.
  repeat (split; [assumption || reflexivity|]).
  destruct Hev as [-> | ->]; split; reflexivity.
Qed.

(** X4.  [wrapConn] calls [SetPeer] at most once, and only with the identity
    derived from the key of the session's certificate chain: when the key
    or the identity cannot be had, no scope is bound to any peer.  The
    scope bound is the one that the call then releases or hands to the
    connection. *)
Theorem wrapConn_sets_peer_after_identity (l : listener) (q : QConn)
    (w : World R) :
  let res := fst (wrapConn P l q w) in
  let evs := newEvents w (snd (wrapConn P l q w)) in
  length (setPeers evs) <= 1 /\
  (forall s p, (s, p) ∈ setPeers evs ->
     (exists pk, PubKeyFromCertChain P (PeerCertificates q) = Ok pk /\
                 IDFromPublicKey P pk = Ok p) /\
     match res with
     | Ok c => scope c = s /\ remotePeerID c = p /\ released evs = []
     | Err _ => released evs = [s]
     end).
Proof.
  intros res evs. subst res evs.
  pose proof (listener_facts.wrapConn_path P l q w) as Hpath.
  destruct (wrapConn P l q w) as [res w']; simpl in *.
  path_events Hpath; simpl;
    try (destruct Hev as [-> | ->]); simpl;
    (split; [lia|]); intros s p Hin;
    repeat match goal with
           | Hi : _ ∈ [] |- _ => inversion Hi
           | Hi : _ ∈ [_] |- _ =>
               apply list_elem_of_singleton in Hi; inversion Hi; subst; clear Hi
           end;
    (split; [eauto|repeat split]).
Qed.

End Wrap.

Section AcceptMore.
Context {R : Type} `{ResourceManager R}.
Variable P : Packages.

Lemma scopeOnly_projections (evs : list Event) :
  scopeOnly evs -> rawClosed evs = [] /\ connClosed evs = [] /\ sent evs = [].
Proof.
  induction 1 as [|e evs [c ->] _ IH]; [repeat split|]. exact IH.
Qed.

Lemma wrap_events (l : listener) (q : QConn) (w w1 : World R) (res : result conn) :
  wrapConn P l q w = (res, w1) ->
  exists evs0,
    trace w1 = trace w ++ evs0 /\ scopeOnly evs0 /\
    holePunching w1 = holePunching w /\ heap w1 = heap w.
Proof.
  intros Hwrap.
  destruct (listener_facts.wrapConn_frame P l q w) as (r & evs & Hw1 & Hall).
  rewrite Hwrap in Hw1. simpl in Hw1. subst w1.
  exists evs. repeat split. exact Hall.
Qed.

Lemma wrapConn_wraps_session (l : listener) (q : QConn) (w w1 : World R) (c : conn) :
  wrapConn P l q w = (Ok c, w1) -> quicConn c = q.
Proof.
  intros Hwrap.
  pose proof (listener_facts.wrapConn_path P l q w) as Hpath.
  rewrite Hwrap in Hpath. simpl in Hpath. inversion Hpath; reflexivity.
Qed.

(** X5.  [wrapConn] talks to the resource manager and to nobody else: it
    closes neither the session nor a connection, also when it fails, which
    leaves the closing to its caller; it sends nothing on a channel of the
    registry; and it leaves the registry, its records and the table of
    connections as they were. *)
Theorem wrapConn_leaves_cleanup_to_caller (l : listener) (q : QConn)
    (w : World R) :
  let w' := snd (wrapConn P l q w) in
  let evs := newEvents w w' in
  scopeOnly evs /\
  rawClosed evs = [] /\ connClosed evs = [] /\ sent evs = [] /\
  holePunching w' = holePunching w /\ heap w' = heap w /\ conns w' = conns w.
Proof.
  intros w' evs. subst w' evs.
  destruct (listener_facts.wrapConn_frame P l q w) as (r & evs & Hw1 & Hall).
  rewrite Hw1, listener_facts.newEvents_extend. simpl.
  split; [exact Hall|].
  destruct (scopeOnly_projections _ Hall) as (-> & -> & ->).
  repeat split.
Qed.

(** A pass through the body of the loop that goes round again has taken a
    session and disposed of it in one of three ways. *)
Lemma once_continue (l : listener) (x : result QConn) (w w1 : World R) :
  OncePath P l w x (Continue w1) ->
  exists q evs0 tail res w0,
    x = Ok q /\ wrapConn P l q w = (res, w0) /\
    trace w1 = trace w ++ evs0 ++ tail /\ newEvents w w0 = evs0 /\
    scopeOnly evs0 /\
    holePunching w1 = holePunching w /\
    ((isOk res = false /\
      tail = [EvCloseWithError q ConnResourceLimitExceeded ""] /\
      heap w1 = heap w) \/
     (exists c, res = Ok c /\ gated (l_transport l) c = true /\
        tail = [EvConnCloseWithError c ConnGated "connection gated";
                EvScope (CallDone (scope c))] /\
        heap w1 = heap w) \/
     (exists c p hp, res = Ok c /\ gated (l_transport l) c = false /\
        tail = [EvSend p c] /\
        holePunching w !! keyOf q c = Some p /\
        heap w !! p = Some hp /\ fulfilled hp = false /\
        heap w1 =
          <[p := {| connCh := connCh hp ++ [c]; fulfilled := true |}]> (heap w))).
Proof.
  intros Hp.
  inversion Hp as [|q e w0 Hw|q c w0 Hw Hg| | | |q c w0 p hp Hw Hg Hk Hr Hf];
    subst;
    destruct (wrap_events l q w w0 _ Hw) as (evs0 & Htr & Hall & Hhp & Hheap);
    exists q, evs0; eexists; eexists; exists w0;
    (split; [reflexivity|]); (split; [exact Hw|]);
    unfold deliver, addConn, closeWithError, quic_CloseWithError, scope_Done,
      emit; simpl;
    rewrite Htr, <- !app_assoc;
    (split; [reflexivity|]);
    (split; [apply (trace_ext w w0); exact Htr|]);
    (split; [exact Hall|]); (split; [exact Hhp|]).
  - left. repeat split; assumption.
  - right. left. exists c. repeat split; assumption.
  - right. right. exists c, p, hp.
    rewrite <- Hhp, <- Hheap. repeat split; assumption.
Qed.

(** A pass that leaves [Accept] has met an error of the underlying
    listener, or has wrapped a session that is not gated and found no
    pending record for it. *)
Lemma once_return (l : listener) (x : result QConn) (w w1 : World R)
    (r : Accepted) :
  OncePath P l w x (Return r w1) ->
  (exists e, x = Err e /\ r = Failed e /\ w1 = w) \/
  (exists q c w0 evs0,
     x = Ok q /\ wrapConn P l q w = (Ok c, w0) /\
     gated (l_transport l) c = false /\
     trace w1 = trace w ++ evs0 /\ newEvents w w0 = evs0 /\ scopeOnly evs0 /\
     holePunching w1 = holePunching w /\ heap w1 = heap w /\
     ((r = Returned c /\
       (holePunching w !! keyOf q c = None \/
        exists p hp, holePunching w !! keyOf q c = Some p /\
                     heap w !! p = Some hp /\ fulfilled hp = true)) \/
      (r = Panicked /\
       exists p, holePunching w !! keyOf q c = Some p /\ heap w !! p = None))).
Proof.
  intros Hp.
  inversion Hp as [e| | |q c w0 Hw Hg Hk|q c w0 p Hw Hg Hk Hr
                  |q c w0 p hp Hw Hg Hk Hr Hf|];
    subst; [left; eauto|..];
    destruct (wrap_events l q w w0 _ Hw) as (evs0 & Htr & Hall & Hhp & Hheap);
    right; exists q, c, w0, evs0;
    (split; [reflexivity|]); (split; [exact Hw|]); (split; [exact Hg|]);
    (split; [exact Htr|]); (split; [apply (trace_ext w w0); exact Htr|]);
    (split; [exact Hall|]); (split; [exact Hhp|]); (split; [exact Hheap|]);
    rewrite <- Hhp, <- Hheap.
  - left. split; [reflexivity|]. left. exact Hk.
  - right. split; [reflexivity|]. exists p. split; assumption.
  - left. split; [reflexivity|]. right. exists p, hp. repeat split; assumption.
Qed.

(** Induction over the loop for properties of what a call of [Accept] has
    taken, returned, left and done, under an invariant of the world. *)
Lemma Accept_events (Inv : World R -> Prop)
    (Φ : list (result QConn) -> Accepted -> list (result QConn) ->
         list Event -> Prop) (l : listener) :
  Φ [] Blocked [] [] ->
  (forall x w it, Inv w -> OncePath P l w x it -> Inv (worldOf it)) ->
  (forall x w w1 evs1 inc r rest evs2,
     Inv w -> OncePath P l w x (Continue w1) ->
     trace w1 = trace w ++ evs1 ->
     Φ inc r rest evs2 -> Φ (x :: inc) r rest (evs1 ++ evs2)) ->
  (forall x w r w1 evs1 rest,
     Inv w -> OncePath P l w x (Return r w1) ->
     trace w1 = trace w ++ evs1 ->
     Φ (x :: rest) r rest evs1) ->
  forall incoming w, Inv w ->
    Inv (snd (Accept P l incoming w)) /\
    exists evs,
      trace (snd (Accept P l incoming w)) = trace w ++ evs /\
      Φ incoming (fst (fst (Accept P l incoming w)))
        (snd (fst (Accept P l incoming w))) evs.
Proof.
  intros Hnil Hinv Hcont Hret incoming.
  induction incoming as [|x inc IH]; intros w Hw; simpl.
  - split; [exact Hw|]. exists []. rewrite app_nil_r. split; [reflexivity|exact Hnil].
  - pose proof (listener_facts.acceptOnce_path P l x w) as Hp.
    destruct (acceptOnce P l x w) as [w1|r w1] eqn:Hx.
    + assert (Hext : exists evs1, trace w1 = trace w ++ evs1).
      { destruct (once_continue l x w w1 Hp)
          as (q & evs0 & ev & res & w0 & _ & _ & Htr & _).
        eexists. exact Htr. }
      destruct Hext as (evs1 & Htr1).
      destruct (IH w1 (Hinv x w _ Hw Hp)) as (Hi & evs2 & Htr2 & HΦ).
      split; [exact Hi|]. exists (evs1 ++ evs2).
      split; [rewrite Htr2, Htr1, app_assoc; reflexivity|].
      exact (Hcont x w w1 evs1 inc _ _ evs2 Hw Hp Htr1 HΦ).
    + simpl. split; [exact (Hinv x w _ Hw Hp)|].
      assert (Hext : exists evs1, trace w1 = trace w ++ evs1).
      { destruct (once_return l x w w1 r Hp)
          as [(e & _ & _ & ->)|(q & c & w0 & evs0 & _ & _ & _ & Htr & _)].
        - exists []. rewrite app_nil_r. reflexivity.
        - eexists. exact Htr. }
      destruct Hext as (evs1 & Htr1).
      exists evs1. split; [exact Htr1|].
      exact (Hret x w r w1 evs1 inc Hw Hp Htr1).
Qed.

Lemma rawClosed_app (a b : list Event) :
  rawClosed (a ++ b) = rawClosed a ++ rawClosed b.
Proof. apply omap_app. Qed.

Lemma connClosed_app (a b : list Event) :
  connClosed (a ++ b) = connClosed a ++ connClosed b.
Proof. apply omap_app. Qed.

Lemma sent_app (a b : list Event) : sent (a ++ b) = sent a ++ sent b.
Proof. apply omap_app. Qed.

Lemma opened_app (a b : list Event) : opened (a ++ b) = opened a ++ opened b.
Proof. apply omap_app. Qed.

Lemma released_app (a b : list Event) :
  released (a ++ b) = released a ++ released b.
Proof. apply omap_app. Qed.

(** The first events of a pass are those of wrapping, which are calls on
    the resource manager. *)
Ltac split_events Htr1 Htr :=
  rewrite Htr in Htr1; apply app_inv_head in Htr1; subst;
  rewrite ?rawClosed_app, ?connClosed_app, ?sent_app, ?opened_app,
    ?released_app, ?length_app;
  match goal with
  | Hall : scopeOnly _ |- _ =>
      destruct (scopeOnly_projections _ Hall) as (-> & -> & ->)
  end.

(** X6.  Every session that [Accept] takes from the underlying listener and
    does not end with is closed as a raw session, closed as a gated
    connection, or sent on a channel of the registry: the sessions taken
    are as many as these three together, plus the one (or the error) that
    [Accept] ends with.  What is left of the underlying listener's output
    is a suffix of it, and a call left waiting has taken all of it. *)
Theorem Accept_accounts_for_sessions (l : listener)
    (incoming : list (result QConn)) (w : World R) :
  let '(r, rest, w') := Accept P l incoming w in
  let evs := newEvents w w' in
  length incoming =
    length rest + length (rawClosed evs) + length (connClosed evs) +
    length (sent evs) + ended r /\
  (exists taken, incoming = taken ++ rest) /\
  (r = Blocked -> rest = []).
Proof.
  destruct (Accept_events (fun _ => True)
              (fun inc r rest evs =>
                 length inc =
                   length rest + length (rawClosed evs) +
                   length (connClosed evs) + length (sent evs) + ended r /\
                 (exists taken, inc = taken ++ rest) /\
                 (r = Blocked -> rest = []))
              l) with (incoming := incoming) (w := w)
    as (_ & evs & Htr & HΦ); try exact I; try (intros; exact I).
  - repeat split. exists []. reflexivity.
  - intros x w0 w1 evs1 inc r rest evs2 _ Hp Htr1 (Hlen & (taken & Htaken) & Hb).
    destruct (once_continue l x w0 w1 Hp)
      as (q & evs0 & ev & res & w2 & -> & _ & Htr & _ & Hall & _ & Hcase).
    split; [|split; [exists (Ok q :: taken); rewrite Htaken; reflexivity|exact Hb]].
    split_events Htr1 Htr.
    destruct Hcase as [(_ & -> & _)|[(c & _ & _ & -> & _)|(c & p & hp & _ & _ & -> & _)]];
      simpl; lia.
  - intros x w0 r w1 evs1 rest _ Hp Htr1.
    destruct (once_return l x w0 w1 r Hp)
      as [(e & -> & -> & ->)
         |(q & c & w2 & evs0 & -> & _ & _ & Htr & _ & Hall & _ & _ & Hcase)].
    + assert (evs1 = []) as ->.
      { rewrite <- (app_nil_r (trace w0)) in Htr1 at 1.
        apply app_inv_head in Htr1. congruence. }
      simpl. split; [lia|]. split; [exists [Err e]; reflexivity|discriminate].
    + rewrite Htr in Htr1. apply app_inv_head in Htr1. subst evs1.
      destruct (scopeOnly_projections _ Hall) as (-> & -> & ->).
      split; [|split; [exists [Ok q]; reflexivity|]].
      * destruct Hcase as [(-> & _)|(-> & _)]; simpl; lia.
      * destruct Hcase as [(-> & _)|(-> & _)]; discriminate.
  - destruct (Accept P l incoming w) as [[r rest] w']; simpl in *.
    rewrite (trace_ext _ _ _ Htr). exact HΦ.
Qed.

(** X7.  [Accept] closes a raw session with the resource-limit code and no
    reason, and a wrapped connection with the gated code and the reason
    "connection gated", and with nothing else.  A raw session closed is
    one taken from the underlying listener; a connection closed is one the
    gater rejected, wrapping a session taken from the underlying
    listener. *)
Theorem Accept_closes_with_two_codes (l : listener)
    (incoming : list (result QConn)) (w : World R) :
  let evs := newEvents w (snd (Accept P l incoming w)) in
  (forall q code msg, (q, code, msg) ∈ rawClosed evs ->
     code = ConnResourceLimitExceeded /\ msg = "" /\ Ok q ∈ incoming) /\
  (forall c code msg, (c, code, msg) ∈ connClosed evs ->
     code = ConnGated /\ msg = "connection gated" /\
     gated (l_transport l) c = true /\ Ok (quicConn c) ∈ incoming).
Proof.
  destruct (Accept_events (fun _ => True)
              (fun inc r rest evs =>
                 (forall q code msg, (q, code, msg) ∈ rawClosed evs ->
                    code = ConnResourceLimitExceeded /\ msg = "" /\ Ok q ∈ inc) /\
                 (forall c code msg, (c, code, msg) ∈ connClosed evs ->
                    code = ConnGated /\ msg = "connection gated" /\
                    gated (l_transport l) c = true /\ Ok (quicConn c) ∈ inc))
              l) with (incoming := incoming) (w := w)
    as (_ & evs & Htr & HΦ); try exact I; try (intros; exact I).
  - split; intros ? ? ? Hin; inversion Hin.
  - intros x w0 w1 evs1 inc r rest evs2 _ Hp Htr1 (Hraw & Hconn).
    destruct (once_continue l x w0 w1 Hp)
      as (q & evs0 & ev & res & w2 & -> & Hwrap & Htr & _ & Hall & _ & Hcase).
    rewrite Htr in Htr1; apply app_inv_head in Htr1; subst evs1.
    rewrite !rawClosed_app, !connClosed_app.
    destruct (scopeOnly_projections _ Hall) as (-> & -> & _).
    destruct Hcase as [(_ & -> & _)|[(c & -> & Hg & -> & _)|(c & p & hp & _ & _ & -> & _)]];
      simpl; split.
    + intros q' code msg Hin. apply elem_of_cons in Hin as [Heq|Hin].
      * inversion Heq; subst. repeat split. left.
      * destruct (Hraw _ _ _ Hin) as (-> & -> & Hq). repeat split. right. exact Hq.
    + intros c code msg Hin.
      destruct (Hconn _ _ _ Hin) as (-> & -> & Hg & Hq). repeat split; [exact Hg|].
      right. exact Hq.
    + intros q' code msg Hin.
      destruct (Hraw _ _ _ Hin) as (-> & -> & Hq). repeat split. right. exact Hq.
    + intros c' code msg Hin. apply elem_of_cons in Hin as [Heq|Hin].
      * inversion Heq; subst. repeat split; [exact Hg|].
        rewrite (wrapConn_wraps_session l q w0 w2 c Hwrap). left.
      * destruct (Hconn _ _ _ Hin) as (-> & -> & Hg' & Hq).
        repeat split; [exact Hg'|]. right. exact Hq.
    + intros q' code msg Hin.
      destruct (Hraw _ _ _ Hin) as (-> & -> & Hq). repeat split. right. exact Hq.
    + intros c' code msg Hin.
      destruct (Hconn _ _ _ Hin) as (-> & -> & Hg' & Hq).
      repeat split; [exact Hg'|]. right. exact Hq.
  - intros x w0 r w1 evs1 rest _ Hp Htr1.
    assert (Hnone : rawClosed evs1 = [] /\ connClosed evs1 = []).
    { destruct (once_return l x w0 w1 r Hp)
        as [(e & -> & -> & ->)
           |(q & c & w2 & evs0 & -> & _ & _ & Htr & _ & Hall & _)].
      - assert (evs1 = []) as ->; [|split; reflexivity].
        rewrite <- (app_nil_r (trace w0)) in Htr1 at 1.
        apply app_inv_head in Htr1. congruence.
      - rewrite Htr in Htr1. apply app_inv_head in Htr1. subst evs1.
        destruct (scopeOnly_projections _ Hall) as (-> & -> & _).
        split; reflexivity. }
    destruct Hnone as [-> ->]. split; intros ? ? ? Hin; inversion Hin.
  - simpl. rewrite (trace_ext _ _ _ Htr). exact HΦ.
Qed.

Lemma return_nil_events (w0 : World R) (evs1 : list Event) :
  trace w0 = trace w0 ++ evs1 -> evs1 = [].
Proof.
  intros Htr. rewrite <- (app_nil_r (trace w0)) in Htr at 1.
  apply app_inv_head in Htr. congruence.
Qed.

(** X8.  Without a gater and with no hole punch registered, [Accept] closes the
    sessions it takes, one after the other and with the resource-limit
    code, until one can be wrapped, and returns that one; or until the
    underlying listener reports an error, and returns that; or until
    nothing is left, and waits.  It closes nothing else, sends nothing and
    does not panic. *)
Theorem Accept_returns_first_wrapped (l : listener)
    (incoming : list (result QConn)) (w : World R) :
  gater (l_transport l) = None ->
  holePunching w = ∅ ->
  let '(r, rest, w') := Accept P l incoming w in
  let evs := newEvents w w' in
  (exists failed,
     rawClosed evs = map limitClose failed /\
     match r with
     | Returned c => incoming = map Ok failed ++ Ok (quicConn c) :: rest
     | Failed e => incoming = map Ok failed ++ Err e :: rest
     | Blocked => incoming = map Ok failed /\ rest = []
     | Panicked => False
     end) /\
  connClosed evs = [] /\ sent evs = [].
Proof.
  intros Hgater Hempty.
  assert (Hungated : forall c, gated (l_transport l) c = false)
    by (intros c; unfold gated; rewrite Hgater; reflexivity).
  destruct (Accept_events (fun w => holePunching w = ∅)
              (fun inc r rest evs =>
                 (exists failed,
                    rawClosed evs = map limitClose failed /\
                    match r with
                    | Returned c => inc = map Ok failed ++ Ok (quicConn c) :: rest
                    | Failed e => inc = map Ok failed ++ Err e :: rest
                    | Blocked => inc = map Ok failed /\ rest = []
                    | Panicked => False
                    end) /\
                 connClosed evs = [] /\ sent evs = [])
              l) with (incoming := incoming) (w := w)
    as (_ & evs & Htr & HΦ); try exact Hempty.
  - split; [|split; reflexivity]. exists []. repeat split.
  - intros x w0 it Hinv Hp.
    destruct it as [w1|r w1]; simpl.
    + destruct (once_continue l x w0 w1 Hp)
        as (_ & _ & _ & _ & _ & _ & _ & _ & _ & _ & Hhp & _). congruence.
    + destruct (once_return l x w0 w1 r Hp)
        as [(e & _ & _ & ->)|(_ & _ & _ & _ & _ & _ & _ & _ & _ & _ & Hhp & _)];
        congruence.
  - intros x w0 w1 evs1 inc r rest evs2 Hinv Hp Htr1 ((failed & Hraw & Hr) & Hcc & Hs).
    destruct (once_continue l x w0 w1 Hp)
      as (q & evs0 & ev & res & w2 & -> & _ & Htr & _ & Hall & _ & Hcase).
    rewrite Htr in Htr1; apply app_inv_head in Htr1; subst evs1.
    rewrite !rawClosed_app, !connClosed_app, !sent_app.
    destruct (scopeOnly_projections _ Hall) as (-> & -> & ->).
    destruct Hcase as [(_ & -> & _)|[(c & _ & Hg & _)|(c & p & hp & _ & _ & _ & Hk & _)]].
    + simpl. split; [|split; assumption].
      exists (q :: failed). rewrite Hraw. split; [reflexivity|].
      destruct r; simpl; try (rewrite Hr; reflexivity); try exact Hr.
      destruct Hr as [-> ->]. split; reflexivity.
    + rewrite Hungated in Hg. discriminate.
    + rewrite Hinv, lookup_empty in Hk. discriminate.
  - intros x w0 r w1 evs1 rest Hinv Hp Htr1.
    destruct (once_return l x w0 w1 r Hp)
      as [(e & -> & -> & ->)
         |(q & c & w2 & evs0 & -> & Hwrap & _ & Htr & _ & Hall & _ & _ & Hcase)].
    + rewrite (return_nil_events _ _ Htr1).
      split; [|split; reflexivity]. exists []. split; reflexivity.
    + rewrite Htr in Htr1. apply app_inv_head in Htr1. subst evs1.
      destruct (scopeOnly_projections _ Hall) as (-> & -> & ->).
      split; [|split; reflexivity]. exists []. split; [reflexivity|].
      destruct Hcase as [(-> & _)|(-> & p & Hk & _)].
      * simpl. rewrite (wrapConn_wraps_session l q w0 w2 c Hwrap). reflexivity.
      * rewrite Hinv, lookup_empty in Hk. discriminate.
  - destruct (Accept P l incoming w) as [[r rest] w']; simpl in *.
    rewrite (trace_ext _ _ _ Htr). exact HΦ.
Qed.

Lemma wellFormed_step (l : listener) (x : result QConn) (w : World R)
    (it : Iteration) :
  wellFormed w -> OncePath P l w x it -> wellFormed (worldOf it).
Proof.
  intros Hwf Hp. destruct it as [w1|r w1]; simpl.
  - destruct (once_continue l x w w1 Hp)
      as (q & evs0 & ev & res & w0 & _ & _ & _ & _ & _ & Hhp & Hcase).
    intros k p. rewrite Hhp. intros Hk. specialize (Hwf k p Hk).
    destruct Hcase as [(_ & _ & ->)|[(c & _ & _ & _ & ->)
                      |(c & p0 & hp & _ & _ & _ & _ & _ & _ & ->)]];
      try exact Hwf.
    destruct (decide (p0 = p)) as [->|Hne].
    + rewrite lookup_insert_eq. eauto.
    + rewrite lookup_insert_ne by exact Hne. exact Hwf.
  - destruct (once_return l x w w1 r Hp)
      as [(e & _ & _ & ->)|(q & c & w0 & evs0 & _ & _ & _ & _ & _ & _ & Hhp & Hheap & _)];
      [exact Hwf|].
    intros k p. rewrite Hhp, Hheap. apply Hwf.
Qed.

Lemma Accept_well_formed (l : listener) (incoming : list (result QConn))
    (w : World R) :
  wellFormed w ->
  wellFormed (snd (Accept P l incoming w)) /\
  fst (fst (Accept P l incoming w)) <> Panicked.
Proof.
  intros Hwf.
  destruct (Accept_events wellFormed (fun inc r rest evs => r <> Panicked) l)
    with (incoming := incoming) (w := w) as (Hwf' & evs & _ & Hr);
    try exact Hwf.
  - discriminate.
  - intros x w0 it Hi Hp. exact (wellFormed_step l x w0 it Hi Hp).
  - intros x w0 w1 evs1 inc r rest evs2 _ _ _ Hr. exact Hr.
  - intros x w0 r w1 evs1 rest Hi Hp _.
    destruct (once_return l x w0 w1 r Hp)
      as [(e & _ & -> & _)|(q & c & w2 & evs0 & _ & _ & _ & _ & _ & _ & _ & _ & Hcase)];
      [discriminate|].
    destruct Hcase as [(-> & _)|(_ & p & Hk & Hnone)]; [discriminate|].
    destruct (Hi _ _ Hk) as [hp Hsome]. congruence.
  - split; assumption.
Qed.

(** When every key of the registry points at a record, no call of
    [Accept] panics, and every key still points at a record afterwards,
    over any number of calls. *)
Theorem Accept_never_panics_on_well_formed (l : listener) (n : nat)
    (incoming : list (result QConn)) (w : World R) :
  wellFormed w ->
  let '(rs, _, w') := AcceptN P n l incoming w in
  wellFormed w' /\ Panicked ∉ rs.
Proof.
  revert incoming w. induction n as [|n IH]; intros incoming w Hwf; simpl.
  - split; [exact Hwf|]. intros Hin. inversion Hin.
  - destruct (Accept_well_formed l incoming w Hwf) as (Hwf1 & Hr).
    destruct (Accept P l incoming w) as [[r rest] w1]; simpl in *.
    specialize (IH rest w1 Hwf1).
    destruct (AcceptN P n l rest w1) as [[rs rest'] w'].
    destruct IH as (Hwf' & Hrs). split; [exact Hwf'|].
    intros Hin. apply elem_of_cons in Hin as [Heq|Hin]; [|exact (Hrs Hin)].
    apply Hr. symmetry. exact Heq.
Qed.



(** X2.  A listener none of whose addresses carries the QUIC v1 component wraps
    no session at all: [wrapConn] fails on every session, whatever its
    version, and [Accept] never returns a connection, never hands one to a
    hole punch and never gets as far as the gater. *)
Theorem listener_without_v1_accepts_nothing (ln : Listener) (t : transport)
    (lp : peer.ID) (key : string) (l : listener) :
  newListener ln t lp key = Ok l ->
  quicV1 (Multiaddrs ln) = [] ->
  (forall q (w : World R), isOk (fst (wrapConn P l q w)) = false) /\
  (forall incoming (w : World R),
     let '(r, _, w') := Accept P l incoming w in
     let evs := newEvents w w' in
     (r = Blocked \/ exists e, r = Failed e) /\
     connClosed evs = [] /\ sent evs = []).
Proof.
  intros Hnew Hnov1.
  assert (Hnone : forall v, localMultiaddrs l !! v = None).
  { intros v. destruct (localMultiaddrs l !! v) as [a|] eqn:Hv; [|reflexivity].
    destruct (listener_facts.newListener_table ln t lp key l Hnew v a Hv)
      as (_ & Hin & Hok).
    assert (Hq : a ∈ quicV1 (Multiaddrs ln)).
    { unfold quicV1. apply list_elem_of_In, filter_In.
      split; [apply list_elem_of_In; exact Hin|exact Hok]. }
    rewrite Hnov1 in Hq. inversion Hq. }
  assert (Hfail : forall q (w w0 : World R) c, wrapConn P l q w = (Ok c, w0) -> False).
  { intros q w w0 c Hwrap.
    pose proof (listener_facts.wrapConn_path P l q w) as Hpath.
    rewrite Hwrap in Hpath. simpl in Hpath.
    inversion Hpath; subst. rewrite Hnone in *. discriminate. }
  split.
  - intros q w. destruct (wrapConn P l q w) as [[c|e] w0] eqn:Hwrap;
      [exfalso; eapply Hfail; eassumption|reflexivity].
  - intros incoming w.
    destruct (Accept_events (fun _ => True)
                (fun inc r rest evs =>
                   (r = Blocked \/ exists e, r = Failed e) /\
                   connClosed evs = [] /\ sent evs = [])
                l) with (incoming := incoming) (w := w)
      as (_ & evs & Htr & HΦ); try exact I; try (intros; exact I).
    + repeat split. left. reflexivity.
    + intros x w0 w1 evs1 inc r rest evs2 _ Hp Htr1 (Hr & Hcc & Hs).
      destruct (once_continue l x w0 w1 Hp)
        as (q & evs0 & ev & res & w2 & -> & Hwrap & Htr' & _ & Hall & _ & Hcase).
      rewrite Htr' in Htr1; apply app_inv_head in Htr1; subst evs1.
      rewrite !connClosed_app, !sent_app.
      destruct (scopeOnly_projections _ Hall) as (_ & -> & ->).
      destruct Hcase as [(_ & -> & _)|[(c & -> & _)|(c & p & hp & -> & _)]].
      * simpl. repeat split; assumption.
      * exfalso. eapply Hfail; eassumption.
      * exfalso. eapply Hfail; eassumption.
    + intros x w0 r w1 evs1 rest _ Hp Htr1.
      destruct (once_return l x w0 w1 r Hp)
        as [(e & -> & -> & ->)|(q & c & w2 & evs0 & -> & Hwrap & _)].
      * rewrite (return_nil_events _ _ Htr1). repeat split. right. eauto.
      * exfalso. eapply Hfail; eassumption.
    + destruct (Accept P l incoming w) as [[r rest] w']; simpl in *.
      rewrite (trace_ext _ _ _ Htr). exact HΦ.
Qed.

End AcceptMore.

Section Unregistered.
Context {R : Type} `{ResourceManager R}.
Variable P : Packages.

(** X10.  A wrapped connection that is not gated and whose key is not in the
    registry is returned by [Accept] as it is: nothing is sent, and the
    registry and its records stay as they were.  The key is the printed
    remote address of the session together with the remote identity of
    the connection, so whatever is registered then differs from the
    session in the address or in the peer. *)
Theorem Accept_returns_unregistered (l : listener) (q : QConn) (c : conn)
    (w w1 : World R) (rest : list (result QConn)) :
  wrapConn P l q w = (Ok c, w1) ->
  gated (l_transport l) c = false ->
  holePunching w !! keyOf q c = None ->
  Accept P l (Ok q :: rest) w = (Returned c, rest, addConn q c w1) /\
  sent (newEvents w (addConn q c w1)) = [] /\
  holePunching (addConn q c w1) = holePunching w /\
  heap (addConn q c w1) = heap w /\
  (forall k, is_Some (holePunching w !! k) ->
     addr k <> addrString (RemoteAddr q) \/ peer k <> remotePeerID c).
Proof.
  intros Hwrap Hgate Hkey.
  destruct (wrap_events P l q w w1 _ Hwrap) as (evs0 & Htr & Hall & Hhp & Hheap).
  split; [|split; [|split; [|split]]].
  - apply listener_facts.Accept_return. apply listener_facts.OncePath_eq.
    apply OnceUnregistered; [exact Hwrap|exact Hgate|].
    rewrite Hhp. exact Hkey.
  - rewrite (trace_ext w (addConn q c w1) evs0 Htr).
    destruct (scopeOnly_projections _ Hall) as (_ & _ & ->). reflexivity.
  - exact Hhp.
  - exact Hheap.
  - intros k [p Hk].
    destruct (decide (addr k = addrString (RemoteAddr q))) as [Ha|Ha];
      [|left; exact Ha].
    destruct (decide (peer k = remotePeerID c)) as [Hp|Hp];
      [|right; exact Hp].
    exfalso. assert (k = keyOf q c) as ->
      by (destruct k; unfold keyOf; simpl in *; congruence).
    congruence.
Qed.

End Unregistered.

Lemma Accept_returns_unregistered_witness :
  let l := doubles.listenerOn doubles.openTransport in
  let q := doubles.session 1 in
  let w := doubles.quiet 1 in
  let c := doubles.wrapped 1 0 in
  let w1 := snd (wrapConn doubles.packages l q w) in
  wrapConn doubles.packages l q w = (Ok c, w1) /\
  gated (l_transport l) c = false /\
  holePunching w !! keyOf q c = None /\
  Accept doubles.packages l [Ok q; Ok (doubles.session 2)] w =
    (Returned c, [Ok (doubles.session 2)], addConn q c w1).
Proof.
  intros l q w c w1.
  assert (Hwrap : wrapConn doubles.packages l q w = (Ok c, w1)) by reflexivity.
  assert (Hgate : gated (l_transport l) c = false) by reflexivity.
  assert (Hkey : holePunching w !! keyOf q c = None) by reflexivity.
  repeat (split; [assumption|]).
  apply (Accept_returns_unregistered doubles.packages l q c w w1
           [Ok (doubles.session 2)] Hwrap Hgate Hkey).
Defined.

Lemma wrapConn_binds_identity_witness :
  let l := doubles.listenerOn doubles.openTransport in
  let q := doubles.session 1 in
  let w := doubles.quiet 1 in
  let c := doubles.wrapped 1 0 in
  wrapConn doubles.packages l q w =
    (Ok c, snd (wrapConn doubles.packages l q w)) /\
  setPeers (newEvents w (snd (wrapConn doubles.packages l q w))) =
    [(0, "Qmalice")].
Proof.
  intros l q w c. split; [reflexivity|].
  destruct (wrapConn_binds_identity doubles.packages l q w
              (snd (wrapConn doubles.packages l q w)) c)
    as (_ & _ & _ & _ & _ & _ & Hset & _); [reflexivity|].
  exact Hset.
Defined.

Lemma Accept_returns_first_wrapped_witness :
  let l := doubles.listenerOn doubles.openTransport in
  let incoming :=
    [Ok doubles.sessionNoCert; Ok (doubles.session 1); Ok (doubles.session 2)] in
  let w := doubles.quiet 3 in
  gater (l_transport l) = None /\
  holePunching w = ∅ /\
  let '(r, rest, w') := Accept doubles.packages l incoming w in
  let evs := newEvents w w' in
  (exists failed,
     rawClosed evs = map limitClose failed /\
     match r with
     | Returned c => incoming = map Ok failed ++ Ok (quicConn c) :: rest
     | Failed e => incoming = map Ok failed ++ Err e :: rest
     | Blocked => incoming = map Ok failed /\ rest = []
     | Panicked => False
     end) /\
  connClosed evs = [] /\ sent evs = [].
Proof.
  intros l incoming w. split; [reflexivity|]. split; [reflexivity|].
  apply (Accept_returns_first_wrapped doubles.packages l incoming w);
    reflexivity.
Defined.


Lemma listener_without_v1_accepts_nothing_witness :
  newListener lnPlain doubles.openTransport "QmLocal" "local-key" =
    Ok listenerPlain /\
  quicV1 (Multiaddrs lnPlain) = [] /\
  isOk (fst (wrapConn doubles.packages listenerPlain (doubles.session 1)
               (doubles.quiet 1))) = false.
Proof.
  split; [reflexivity|]. split; [reflexivity|].
  destruct (listener_without_v1_accepts_nothing (R := doubles.quota)
              doubles.packages lnPlain doubles.openTransport "QmLocal"
              "local-key" listenerPlain) as (Hwrap & _);
    [reflexivity..|].
  apply Hwrap.
Defined.

(** A session without a certificate and two sessions of alice arrive at a
    listener without gater and with nothing registered: the first is
    closed with the resource-limit code and the second is returned. *)
Example first_wrapped_scenario :
  let l := doubles.listenerOn doubles.openTransport in
  let '(r, rest, w') :=
    Accept doubles.packages l
      [Ok doubles.sessionNoCert; Ok (doubles.session 1); Ok (doubles.session 2)]
      (doubles.quiet 3) in
  r = Returned (doubles.wrapped 1 1) /\
  rest = [Ok (doubles.session 2)] /\
  rawClosed (trace w') = [limitClose doubles.sessionNoCert] /\
  opened (trace w') = [0; 1] /\ released (trace w') = [0].
Proof. vm_compute. repeat split. Qed.

End listener_more.
